(** * apptrace: span identifiers, annotation lists and the event codec

    A shallow embedding of [span.go] (package [apptrace]) together with the
    pieces of the package it calls into, and the properties of its
    specification stated and proved over that embedding.

    Go strings are byte sequences: they are modelled by [string], whose
    characters ([ascii]) are exactly the 256 byte values.  A [uint64] is an
    [N] below [2^64].  A Go [map[string]string] is a [gmap string string]. *)

From Stdlib Require Import NArith ZArith Ascii String List Lia DecimalString.
From stdpp Require Import base option list strings gmap.

Local Open Scope string_scope.

(** ** The fragment of Go's [strings] package used by [span.go] *)

Module GoStrings.

(** [s[n:]] *)
Fixpoint slice_from (n : nat) (s : string) : string :=
  match n, s with
  | O, _ => s
  | S n', String _ r => slice_from n' r
  | S _, EmptyString => EmptyString
  end.

(** [s[:n]] *)
Fixpoint slice_to (n : nat) (s : string) : string :=
  match n, s with
  | O, _ => EmptyString
  | S n', String c r => String c (slice_to n' r)
  | S _, EmptyString => EmptyString
  end.

(** [strings.HasPrefix]:
    [len(s) >= len(prefix) && s[:len(prefix)] == prefix]. *)
Definition HasPrefix (s prefix : string) : bool :=
  (String.length prefix <=? String.length s)%nat
  && String.eqb (slice_to (String.length prefix) s) prefix.

(** [strings.Index]: the position of the first occurrence of [sep] in [s];
    [None] stands for Go's [-1]. *)
Fixpoint Index (s sep : string) : option nat :=
  if HasPrefix s sep then Some O
  else match s with
       | EmptyString => None
       | String _ r => S <$> Index r sep
       end.

(** The loop of [strings.genSplit] for a non-empty separator: cut at the
    leftmost occurrence, continue in the rest.  Every round consumes at
    least one byte, so [fuel] = [len(s)] rounds are enough. *)
Fixpoint genSplit (fuel : nat) (s sep : string) : list string :=
  match fuel with
  | O => [s]
  | S fuel' =>
      match Index s sep with
      | None => [s]
      | Some m =>
          slice_to m s :: genSplit fuel' (slice_from (m + String.length sep) s) sep
      end
  end.

(** [strings.Split(s, sep)] for a non-empty [sep]. *)
Definition Split (s sep : string) : list string :=
  genSplit (String.length s) s sep.

(** The components of [s] around every occurrence of the byte [c], by
    structural recursion: what [Split] is expected to compute for a
    one-byte separator. *)
Fixpoint fields (c : ascii) (s : string) : list string :=
  match s with
  | EmptyString => [EmptyString]
  | String x r =>
      if Ascii.eqb x c then EmptyString :: fields c r
      else match fields c r with
           | h :: t => String x h :: t
           | [] => [String x EmptyString]
           end
  end.

(** [strings.Count(s, sep)] for a one-byte separator. *)
Fixpoint count_byte (c : ascii) (s : string) : nat :=
  match s with
  | EmptyString => O
  | String x r => (if Ascii.eqb x c then 1 else 0) + count_byte c r
  end.

(** [strings.Join(parts, sep)] *)
Fixpoint Join (parts : list string) (sep : string) : string :=
  match parts with
  | [] => EmptyString
  | [p] => p
  | p :: rest => p +:+ sep +:+ Join rest sep
  end.

End GoStrings.

(** ** Errors *)

(** Go's [error] values that occur in the package.  [ErrBadSpanID] is the
    package-level sentinel of [span.go]; [ErrParseID] stands for whatever
    error [ParseID] reports for the component it was given;
    [ErrUnsupportedField] and [ErrDecode] are the two failures of the event
    codec (spec, section 7). *)
Inductive error : Type :=
  | ErrBadSpanID
  | ErrParseID (component : string)
  | ErrUnsupportedField (key : string)
  | ErrDecode (value : string).

#[global] Instance error_eq_dec : EqDecision error.
Proof. solve_decision. Defined.

(** ** Identifiers *)

Module ID.

(** [type ID uint64] *)
Definition t : Type := N.

Definition valid (i : t) : Prop := (i < 2 ^ 64)%N.

Definition hex_digits : string := "0123456789abcdef".

Definition hex_digit (d : N) : ascii :=
  match String.get (N.to_nat d) hex_digits with
  | Some c => c
  | None => "0"%char
  end.

(** [w] hexadecimal digits of [v], most significant first, padded with
    zeros on the left. *)
Fixpoint hex_pad (w : nat) (v : N) : string :=
  match w with
  | O => EmptyString
  | S w' => hex_pad w' (v / 16) +:+ String (hex_digit (v mod 16)) EmptyString
  end.

(** The value of one hexadecimal digit; both letter cases are hexadecimal
    characters. *)
Definition hex_value (c : ascii) : option N :=
  let n := N_of_ascii c in
  if (48 <=? n)%N && (n <=? 57)%N then Some (n - 48)%N
  else if (97 <=? n)%N && (n <=? 102)%N then Some (n - 87)%N
  else if (65 <=? n)%N && (n <=? 70)%N then Some (n - 55)%N
  else None.

Fixpoint parse_hex (acc : N) (s : string) : option N :=
  match s with
  | EmptyString => Some acc
  | String c r =>
      match hex_value c with
      | Some d => parse_hex (acc * 16 + d) r
      | None => None
      end
  end.

(** What the spec calls a 16-hex-digit identifier, stated on the
    characters. *)
Definition is_hex_char (c : ascii) : Prop :=
  let n := N_of_ascii c in
  (48 <= n <= 57 \/ 97 <= n <= 102 \/ 65 <= n <= 70)%N.

Definition is_hex16 (s : string) : Prop :=
  String.length s = 16%nat /\ Forall is_hex_char (list_ascii_of_string s).

(** Modelled from the spec: [ID.String] lives in [id.go], which is not
    among the sources.  Spec, section 3: "Canonical string form is
    lowercase hexadecimal, zero-padded to 16 characters." *)
Definition String (i : t) : string := hex_pad 16 i.

End ID.

(** Modelled from the spec: [ParseID] lives in [id.go], which is not among
    the sources.  Spec, section 4.1: "strict 16-hex-digit decode; any other
    length or non-hex character fails."  The Go result pair of an [ID] and
    an [error] is kept: the error is [None] for [nil]. *)
Definition ParseID (s : string) : ID.t * option error :=
  if (String.length s =? 16)%nat then
    match ID.parse_hex 0 s with
    | Some v => (v, None)
    | None => (0%N, Some (ErrParseID s))
    end
  else (0%N, Some (ErrParseID s)).

(** ** Span identifiers ([span.go]) *)

Definition SpanIDDelimiter : string := "/".

Module SpanID.

Record t : Type := mk {
  Trace : ID.t;
  Span : ID.t;
  Parent : ID.t
}.

#[global] Arguments mk (Trace Span Parent)%_N.

Definition valid (id : t) : Prop :=
  ID.valid (Trace id) /\ ID.valid (Span id) /\ ID.valid (Parent id).

(** [func (id SpanID) IsRoot() bool] *)
Definition IsRoot (id : t) : bool := (Parent id =? 0)%N.

(** [func (id SpanID) String() string]; [%s] on an [ID] is [ID.String]. *)
Definition String (id : t) : string :=
  if (Parent id =? 0)%N then
    ID.String (Trace id) +:+ SpanIDDelimiter +:+ ID.String (Span id)
  else
    ID.String (Trace id) +:+ SpanIDDelimiter +:+ ID.String (Span id)
      +:+ SpanIDDelimiter +:+ ID.String (Parent id).

End SpanID.

#[global] Instance SpanID_eq_dec : EqDecision SpanID.t.
Proof. solve_decision. Defined.

(** [parts[i]]; every use below is guarded by the length test. *)
Definition part (parts : list string) (i : nat) : string :=
  default EmptyString (parts !! i).

(** [func ParseSpanID(s string)], returning a [SpanID] pointer and an
    [error].  The result pair is kept as in Go: [None] in the first
    component is the [nil] pointer, [None] in the second the [nil] error. *)
Definition ParseSpanID (s : string) : option SpanID.t * option error :=
  let parts := GoStrings.Split s SpanIDDelimiter in
  if negb (length parts =? 2)%nat && negb (length parts =? 3)%nat then
    (None, Some ErrBadSpanID)
  else
    let '(root, err) := ParseID (part parts 0) in
    if err is Some _ then (None, Some ErrBadSpanID)
    else
      let '(id, err) := ParseID (part parts 1) in
      if err is Some _ then (None, Some ErrBadSpanID)
      else
        if (length parts =? 3)%nat then
          let '(i, err) := ParseID (part parts 2) in
          if err is Some _ then (None, Some ErrBadSpanID)
          else (Some (SpanID.mk root id i), None)
        else (Some (SpanID.mk root id 0%N), None).

(** Identifier generation draws from a random source.  [generateID] lives
    in [id.go], which is not among the sources; the source of randomness is
    threaded explicitly and [generateID] is left arbitrary. *)
Section Generation.

Context {Rand : Type} (generateID : Rand -> ID.t * Rand).

(** [func NewRootSpanID() SpanID]: the fields of the literal are
    evaluated in order, [Parent] is left at its zero value. *)
Definition NewRootSpanID (r : Rand) : SpanID.t * Rand :=
  let '(trace, r) := generateID r in
  let '(span, r) := generateID r in
  (SpanID.mk trace span 0%N, r).

(** [func NewSpanID(parent SpanID) SpanID] *)
Definition NewSpanID (parent : SpanID.t) (r : Rand) : SpanID.t * Rand :=
  let '(span, r) := generateID r in
  (SpanID.mk (SpanID.Trace parent) span (SpanID.Span parent), r).

End Generation.

(** ** Annotations and spans ([span.go]) *)

(** A Go byte slice: [None] is the [nil] slice, [Some b] a slice with
    contents [b]. *)
Definition bytes : Type := option string.

(** The conversion [string(b)]. *)
Definition string_of_bytes (b : bytes) : string := default EmptyString b.

Record Annotation : Type := mkAnnotation {
  Key : string;
  Value : bytes
}.

(** Modelled from the spec: the constant [schemaPrefix] is declared in
    [event.go], which is not among the sources.  Spec, section 3: "any
    annotation key of the form [_schema:<Name>]". *)
Definition schemaPrefix : string := "_schema:".

Definition nameKey : string := "name".

Module Annotations.

(** [type Annotations []Annotation] *)
Definition t : Type := list Annotation.

(** [func (as Annotations) schemas() []string] *)
Definition schemas (anns : t) : list string :=
  fold_left
    (fun schemas a =>
       if GoStrings.HasPrefix (Key a) schemaPrefix
       then (schemas ++ [GoStrings.slice_from (String.length schemaPrefix) (Key a)])%list
       else schemas)
    anns [].

(** [func (as Annotations) get(key string) []byte] *)
Fixpoint get (anns : t) (key : string) : bytes :=
  match anns with
  | [] => None
  | a :: rest => if String.eqb (Key a) key then Value a else get rest key
  end.

(** The [range] loop of [StringMap], from the map [m] built so far. *)
Definition StringMap_loop (m : gmap string string) (anns : t) :
    gmap string string :=
  fold_left (fun m a => <[Key a := string_of_bytes (Value a)]> m) anns m.

(** [func (as Annotations) StringMap() map[string]string] *)
Definition StringMap (anns : t) : gmap string string :=
  StringMap_loop ∅ anns.

End Annotations.

Module Span.

Record t : Type := mk {
  ID : SpanID.t;
  Annotations : Annotations.t
}.

Fixpoint Name_loop (anns : Annotations.t) : string :=
  match anns with
  | [] => EmptyString
  | a :: rest =>
      if String.eqb (Key a) nameKey then string_of_bytes (Value a)
      else Name_loop rest
  end.

(** [func (s *Span) Name() string] *)
Definition Name (s : t) : string := Name_loop (Annotations s).

End Span.

(** ** The event codec *)

(** The codec ([MarshalEvent], [UnmarshalEvent] and the field walk they
    share) and the HTTP server event of package [httptrace] are not among
    the sources; only the test of [httptrace] is.  This part is written
    from sections 4.3, 4.4 and 6 of the specification, with the field names
    the test uses. *)

(** The outcome of a codec operation: a value, or the error reported. *)
Inductive result (A : Type) : Type :=
  | Ok (a : A)
  | Err (e : error).

Arguments Ok {A} a.
Arguments Err {A} e.


#[local] Unset Elimination Schemes.

(** Modelled from the spec: the events the codec of [event.go] walks by
    reflection.  Spec, section 3: "any structured value that can be
    traversed field-by-field"; section 4.3 names strings, integers, times,
    maps and nested structs.  [VUnsupported] is a field of a kind the codec
    has no encoding for.  A map without entries stands for Go's nil map as
    well. *)
Inductive value (Time : Type) : Type :=
  | VString (s : string)
  | VInt (z : Z)
  | VTime (t : Time)
  | VMap (m : gmap string string)
  | VStruct (fields : list (string * value Time))
  | VUnsupported.

#[local] Set Elimination Schemes.

Arguments VString {Time} s.
Arguments VInt {Time} z.
Arguments VTime {Time} t.
Arguments VMap {Time} m.
Arguments VStruct {Time} fields.
Arguments VUnsupported {Time}.


(** Modelled from the spec: the scalar encodings of [reflect.go].  Spec,
    section 4.3, item 6: "integers as base-10 decimal". *)
Definition format_int (z : Z) : string := NilZero.string_of_int (Z.to_int z).

Definition parse_int (s : string) : option Z :=
  Z.of_int <$> NilZero.int_of_string s.

(** The key of a field: its path, joined with dots. *)
Definition path_key (path : list string) : string := GoStrings.Join path ".".

(** The path of a key: the key, split on dots. *)
Definition key_path (key : string) : list string := GoStrings.Split key ".".

Definition to_lower (c : ascii) : ascii :=
  let n := N_of_ascii c in
  if (65 <=? n)%N && (n <=? 90)%N then ascii_of_N (n + 32) else c.

Fixpoint lower (s : string) : string :=
  match s with
  | EmptyString => EmptyString
  | String c r => String (to_lower c) (lower r)
  end.

(** Equality of header names without regard to letter case (Go's
    [strings.EqualFold] on ASCII names). *)
Definition EqualFold (a b : string) : bool := String.eqb (lower a) (lower b).

(** Modelled from the spec: the deny-list of sensitive header names and the
    redaction marker are declared in package [httptrace], which is not
    among the sources.  Spec, section 4.3, item 5: "a fixed deny-list of
    sensitive names (case-insensitively; at minimum an Authorization
    header) is replaced with a literal redaction marker string"; the
    marker is the one the test expects. *)
Definition RedactedHeaders : list string := ["Authorization"].

Definition redactionMarker : string := "REDACTED".

Definition isRedacted (name : string) : bool :=
  existsb (EqualFold name) RedactedHeaders.

(** Modelled from the spec: the merge of header sources lives in package
    [httptrace].  Spec, section 4.3, item 4: sources "are merged into a
    single flattened map before emission: entries from the later-applied
    source overwrite entries from the earlier one on key collision". *)
Definition mergeHeaders (sources : list (gmap string string)) :
    gmap string string :=
  fold_left (fun merged source => source ∪ merged) sources ∅.

(** Modelled from the spec: section 4.3, items 4 and 5 together, for the
    primary headers and the trailers of a request. *)
Definition redactHeaders (header trailer : gmap string string) :
    gmap string string :=
  map_imap
    (fun name v => Some (if isRedacted name then redactionMarker else v))
    (mergeHeaders [header; trailer]).

(** Walks over the fields of a struct, in declaration order. *)

(** Every field contributes its annotations. *)
Definition each_field {V : Type} (f : string -> V -> result Annotations.t) :
    list (string * V) -> result Annotations.t :=
  fix walk fields :=
    match fields with
    | [] => Ok []
    | (name, v) :: rest =>
        match f name v with
        | Ok anns =>
            match walk rest with
            | Ok anns' => Ok (anns ++ anns')%list
            | Err err => Err err
            end
        | Err err => Err err
        end
    end.

(** The field called [name], if there is one, is replaced by [f] of it. *)
Definition update_field {V : Type} (f : V -> result V) (name : string) :
    list (string * V) -> result (list (string * V)) :=
  fix walk fields :=
    match fields with
    | [] => Ok []
    | (n, v) :: rest =>
        if String.eqb n name then
          match f v with
          | Ok v' => Ok ((n, v') :: rest)
          | Err err => Err err
          end
        else
          match walk rest with
          | Ok rest' => Ok ((n, v) :: rest')
          | Err err => Err err
          end
    end.


Section Codec.

Context {Time : Type}.
Context (formatTime : Time -> string) (parseTime : string -> option Time).

(** Modelled from the spec: section 4.3, items 2, 3, 6 and 7.  One
    annotation per leaf, keyed by the dot-joined path; every entry of a map
    under the path of the map followed by the entry's key; empty and zero
    values are emitted like any other; a field without an encoding is an
    error. *)
Fixpoint flattenValue (path : list string) (e : value Time) :
    result Annotations.t :=
  match e with
  | VString s => Ok [mkAnnotation (path_key path) (Some s)]
  | VInt z => Ok [mkAnnotation (path_key path) (Some (format_int z))]
  | VTime t => Ok [mkAnnotation (path_key path) (Some (formatTime t))]
  | VMap m =>
      Ok ((fun kv => mkAnnotation (path_key (path ++ [kv.1])) (Some kv.2))
            <$> map_to_list m)
  | VStruct fields =>
      each_field (fun name v => flattenValue (path ++ [name]) v) fields
  | VUnsupported => Err (ErrUnsupportedField (path_key path))
  end.

(** Modelled from the spec: section 4.3, item 1, "A marker annotation
    [_schema:<Name>] with empty value is emitted first". *)
Definition MarshalEvent (schema : string) (e : value Time) :
    result Annotations.t :=
  match flattenValue [] e with
  | Ok anns => Ok (mkAnnotation (schemaPrefix +:+ schema) None :: anns)
  | Err err => Err err
  end.

(** Modelled from the spec: section 4.4, item 4, "decimal to integer,
    RFC 3339 to time, otherwise verbatim string.  A value that fails to
    parse against its field's expected type is a decode error". *)
Definition decode_int (raw : string) : result (value Time) :=
  match parse_int raw with
  | Some z => Ok (VInt z)
  | None => Err (ErrDecode raw)
  end.

Definition decode_time (raw : string) : result (value Time) :=
  match parseTime raw with
  | Some t => Ok (VTime t)
  | None => Err (ErrDecode raw)
  end.

(** Modelled from the spec: section 4.4, items 2 and 3.  One annotation is
    written into the target [e]: its path is walked into nested fields; at
    a scalar field the value is parsed; under a map field what is left of
    the path is the key of an entry; a path that leads nowhere leaves the
    target as it is. *)
Fixpoint assign (e : value Time) (path : list string) (raw : string) :
    result (value Time) :=
  match e with
  | VString _ =>
      match path with [] => Ok (VString raw) | _ => Ok e end
  | VInt _ =>
      match path with [] => decode_int raw | _ => Ok e end
  | VTime _ =>
      match path with [] => decode_time raw | _ => Ok e end
  | VMap m =>
      match path with
      | [] => Ok e
      | _ => Ok (VMap (<[path_key path := raw]> m))
      end
  | VStruct fields =>
      match path with
      | [] => Ok e
      | name :: rest =>
          match update_field (fun v => assign v rest raw) name fields with
          | Ok fields' => Ok (VStruct fields')
          | Err err => Err err
          end
      end
  | VUnsupported => Ok e
  end.

(** Modelled from the spec: section 4.4.  The annotations are written into
    the target in list order; the first decode error ends the walk. *)
Fixpoint UnmarshalEvent (anns : Annotations.t) (e : value Time) :
    result (value Time) :=
  match anns with
  | [] => Ok e
  | a :: rest =>
      match assign e (key_path (Key a)) (string_of_bytes (Value a)) with
      | Ok e' => UnmarshalEvent rest e'
      | Err err => Err err
      end
  end.





End Codec.

(** ** The HTTP server event *)

(** The fields of Go's [http.Request] that the event is built from.  Header
    values are kept as single strings, as the specification has them in its
    examples. *)
Module HTTPRequest.

Record t : Type := mk {
  Method : string;
  RequestURI : string;
  Proto : string;
  Header : gmap string string;
  Trailer : gmap string string;
  Host : string;
  RemoteAddr : string;
  ContentLength : Z
}.

End HTTPRequest.

Module RequestInfo.

Record t : Type := mk {
  Method : string;
  URI : string;
  Proto : string;
  Headers : gmap string string;
  Host : string;
  RemoteAddr : string;
  ContentLength : Z
}.

Definition to_value {Time : Type} (r : t) : value Time :=
  VStruct
    [("Method", VString (Method r)); ("URI", VString (URI r));
     ("Proto", VString (Proto r)); ("Headers", VMap (Headers r));
     ("Host", VString (Host r)); ("RemoteAddr", VString (RemoteAddr r));
     ("ContentLength", VInt (ContentLength r))].

End RequestInfo.

Module ResponseInfo.

Record t : Type := mk {
  Headers : gmap string string;
  ContentLength : Z;
  StatusCode : Z
}.

Definition to_value {Time : Type} (r : t) : value Time :=
  VStruct
    [("Headers", VMap (Headers r)); ("ContentLength", VInt (ContentLength r));
     ("StatusCode", VInt (StatusCode r))].

End ResponseInfo.

(** Modelled from the spec: the [HTTPServer] event is declared in package
    [httptrace].  Spec, section 6: "request method/proto/URI/host/headers/
    content-length, response status/content-length/headers, user, route,
    receive/send timestamps"; the names are those of the test. *)
Module ServerEvent.

Record t (Time : Type) : Type := mk {
  Request : RequestInfo.t;
  Response : ResponseInfo.t;
  Route : string;
  User : string;
  ServerRecv : Time;
  ServerSend : Time
}.

Arguments mk {Time}.
Arguments Request {Time}.
Arguments Response {Time}.
Arguments Route {Time}.
Arguments User {Time}.
Arguments ServerRecv {Time}.
Arguments ServerSend {Time}.

Definition Schema : string := "HTTPServer".

Definition to_value {Time : Type} (e : t Time) : value Time :=
  VStruct
    [("Request", RequestInfo.to_value (Request e));
     ("Response", ResponseInfo.to_value (Response e));
     ("Route", VString (Route e)); ("User", VString (User e));
     ("ServerRecv", VTime (ServerRecv e)); ("ServerSend", VTime (ServerSend e))].

(** [e.Response.StatusCode = code] *)
Definition set_StatusCode {Time : Type} (code : Z) (e : t Time) : t Time :=
  mk (Request e)
     (ResponseInfo.mk (ResponseInfo.Headers (Response e))
        (ResponseInfo.ContentLength (Response e)) code)
     (Route e) (User e) (ServerRecv e) (ServerSend e).

(** The zero value of the struct. *)
Definition zero {Time : Type} (zeroTime : Time) : t Time :=
  mk (RequestInfo.mk "" "" "" ∅ "" "" 0) (ResponseInfo.mk ∅ 0 0) "" ""
     zeroTime zeroTime.

End ServerEvent.

(** Modelled from the spec: [NewServerEvent] lives in package [httptrace].
    It fills the request part of the event from the request, its headers
    being the merge of the request's headers and trailers with the
    sensitive ones redacted; everything else is left at its zero value. *)
Definition NewServerEvent {Time : Type} (zeroTime : Time)
    (r : HTTPRequest.t) : ServerEvent.t Time :=
  ServerEvent.mk
    (RequestInfo.mk (HTTPRequest.Method r) (HTTPRequest.RequestURI r)
       (HTTPRequest.Proto r)
       (redactHeaders (HTTPRequest.Header r) (HTTPRequest.Trailer r))
       (HTTPRequest.Host r) (HTTPRequest.RemoteAddr r)
       (HTTPRequest.ContentLength r))
    (ResponseInfo.mk ∅ 0 0) "" "" zeroTime zeroTime.

(** The annotation that carries one header of the request. *)
Definition header_annotation (kv : string * string) : Annotation :=
  mkAnnotation ("Request.Headers." +:+ kv.1) (Some kv.2).

(** ** Timestamps in UTC, to the second *)

(** An instance of the time codec, enough to run the tests of the package:
    RFC 3339 timestamps in UTC without fractional seconds. *)
Module UTC.

Record t : Type := mk {
  year : N;
  month : N;
  day : N;
  hour : N;
  minute : N;
  second : N
}.

Arguments mk (year month day hour minute second)%_N.

(** Go's zero [time.Time]: January 1, year 1, 00:00:00 UTC. *)
Definition zero : t := mk 1 1 1 0 0 0.

Fixpoint dec_pad (w : nat) (v : N) : string :=
  match w with
  | O => EmptyString
  | S w' => dec_pad w' (v / 10) +:+ String (ascii_of_N (48 + v mod 10)) EmptyString
  end.

Definition format (x : t) : string :=
  dec_pad 4 (year x) +:+ "-" +:+ dec_pad 2 (month x) +:+ "-"
  +:+ dec_pad 2 (day x) +:+ "T" +:+ dec_pad 2 (hour x) +:+ ":"
  +:+ dec_pad 2 (minute x) +:+ ":" +:+ dec_pad 2 (second x) +:+ "Z".

Fixpoint parse_dec (acc : N) (s : string) : option N :=
  match s with
  | EmptyString => Some acc
  | String c r =>
      let n := N_of_ascii c in
      if (48 <=? n)%N && (n <=? 57)%N then parse_dec (acc * 10 + (n - 48)) r
      else None
  end.

(** [s[i:j]] as a decimal number. *)
Definition field (s : string) (i j : nat) : option N :=
  parse_dec 0 (GoStrings.slice_to (j - i) (GoStrings.slice_from i s)).

Definition byte_at (s : string) (i : nat) (c : ascii) : bool :=
  match String.get i s with
  | Some x => Ascii.eqb x c
  | None => false
  end.

Definition parse (s : string) : option t :=
  if (String.length s =? 20)%nat
     && byte_at s 4 "-" && byte_at s 7 "-" && byte_at s 10 "T"
     && byte_at s 13 ":" && byte_at s 16 ":" && byte_at s 19 "Z"
  then
    y ← field s 0 4; mo ← field s 5 7; d ← field s 8 10;
    h ← field s 11 13; mi ← field s 14 16; se ← field s 17 19;
    if (1 <=? mo)%N && (mo <=? 12)%N && (1 <=? d)%N && (d <=? 31)%N
       && (h <? 24)%N && (mi <? 60)%N && (se <? 60)%N
    then Some (mk y mo d h mi se)
    else None
  else None.

End UTC.

(** ** The inputs of the tests of package [httptrace] *)

(** The request of [TestNewServerEvent]. *)
Definition test_request : HTTPRequest.t :=
  HTTPRequest.mk "GET" "/foo" "HTTP/1.1"
    (list_to_map
       [("Authorization", "Basic seeecret"); ("Accept", "application/json")])
    (list_to_map [("Authorization", "Basic seeecret"); ("Connection", "close")])
    "example.com" "127.0.0.1" 0.

(** The map the same test expects from [StringMap]. *)
Definition test_expected : gmap string string :=
  list_to_map
    [("_schema:HTTPServer", ""); ("Request.Headers.Connection", "close");
     ("Request.Headers.Accept", "application/json");
     ("Request.Headers.Authorization", "REDACTED");
     ("Request.Proto", "HTTP/1.1"); ("Request.RemoteAddr", "127.0.0.1");
     ("Request.Host", "example.com"); ("Request.ContentLength", "0");
     ("Request.Method", "GET"); ("Request.URI", "/foo");
     ("Response.StatusCode", "200"); ("Response.ContentLength", "0");
     ("User", ""); ("Route", ""); ("ServerSend", "0001-01-01T00:00:00Z");
     ("ServerRecv", "0001-01-01T00:00:00Z")].

(** The annotations of [TestServerEvent_unmarshal], in the order of the
    map literal of the test. *)
Definition test_annotations : Annotations.t :=
  (fun kv => mkAnnotation kv.1 (Some kv.2))
    <$> [("", "/foo"); ("_schema:name", ""); ("User", "u");
         ("ServerRecv", "0001-01-01T00:00:00Z");
         ("ServerSend", "0001-01-01T00:00:00Z");
         ("Request.Host", "example.com"); ("Request.RemoteAddr", "");
         ("Request.ContentLength", "0"); ("Request.Method", "GET");
         ("Request.URI", "/foo"); ("Request.Proto", "HTTP/1.1");
         ("Response.Headers.Span-Id", "15409ac1437f45e4/118217713a143137");
         ("Response.ContentLength", "0"); ("Response.StatusCode", "200");
         ("Route", "r"); ("_schema:HTTPServer", "")].

(** The event the same test wants. *)
Definition test_want : ServerEvent.t UTC.t :=
  ServerEvent.mk
    (RequestInfo.mk "GET" "/foo" "HTTP/1.1" ∅ "example.com" "" 0)
    (ResponseInfo.mk {["Span-Id" := "15409ac1437f45e4/118217713a143137"]} 0 200)
    "r" "u" UTC.zero UTC.zero.

(** ** The specification's reading of [schemas] *)

(** [strip_prefix p s] is the rest of [s] after the prefix [p], when [s]
    starts with [p]. *)
Fixpoint strip_prefix (p s : string) : option string :=
  match p, s with
  | EmptyString, _ => Some s
  | String a p', String b s' =>
      if Ascii.eqb a b then strip_prefix p' s' else None
  | String _ _, EmptyString => None
  end.

(** Spec, section 4.2: "scan for [_schema:] prefixed keys, strip the
    prefix, preserve first-seen order". *)
Fixpoint schemas_spec (anns : Annotations.t) : list string :=
  match anns with
  | [] => []
  | a :: rest =>
      match strip_prefix "_schema:" (Key a) with
      | Some name => name :: schemas_spec rest
      | None => schemas_spec rest
      end
  end.

(** ** Further operations on spans and annotations *)

(** A chain of [n] spans below [p]: each one is made by [NewSpanID] from
    the one before it, as a caller does when work is handed down. *)
Fixpoint descend {Rand : Type} (generateID : Rand -> ID.t * Rand) (n : nat)
    (p : SpanID.t) (r : Rand) : list SpanID.t * Rand :=
  match n with
  | O => ([], r)
  | S n' =>
      let '(child, r) := NewSpanID generateID p r in
      let '(below, r) := descend generateID n' child r in
      (child :: below, r)
  end.

(** The line feed, Go's [\n]. *)
Definition newline : string := String "010"%char EmptyString.

(** [func (as Annotations) String() string]: one [Fprintf] of
    [%s=%q] and a newline per annotation, into one buffer.  The verb [%q]
    is Go's quoting of the value (package [strconv]), left arbitrary. *)
Definition Annotations_String (Quote : string -> string)
    (anns : Annotations.t) : string :=
  fold_left
    (fun buf a =>
       buf +:+ (Key a +:+ "=" +:+ Quote (string_of_bytes (Value a)) +:+ newline))
    anns EmptyString.

(** [func mapToAnnotations(m map[string]string) apptrace.Annotations] of
    the test file: one annotation per entry, with a non-nil value, in the
    order in which [range] visits the entries, here the list [visited]. *)
Definition mapToAnnotations (visited : list (string * string)) : Annotations.t :=
  fold_left
    (fun anns kv => (anns ++ [mkAnnotation kv.1 (Some kv.2)])%list)
    visited [].

(** [range] visits every entry of the map once, in an order of its own. *)
Definition range_order (m : gmap string string)
    (visited : list (string * string)) : Prop :=
  visited ≡ₚ map_to_list m.

(* ================================================================== *)
(** * Properties *)
(* ================================================================== *)

(** ** Sanity checks on concrete inputs *)

Example ParseSpanID_child :
  ParseSpanID "0000000000000001/0000000000000002/0000000000000003"
  = (Some (SpanID.mk 1%N 2%N 3%N), None).
Proof. vm_compute. reflexivity. Qed.

Example ParseSpanID_root :
  ParseSpanID "15409ac1437f45e4/118217713a143137"
  = (Some (SpanID.mk 1531394028157748708%N 1261596620690305335%N 0%N), None).
Proof. vm_compute. reflexivity. Qed.

Example SpanID_String_child :
  SpanID.String (SpanID.mk 1%N 2%N 3%N)
  = "0000000000000001/0000000000000002/0000000000000003".
Proof. vm_compute. reflexivity. Qed.

Example Split_empty : GoStrings.Split "" "/" = [""].
Proof. reflexivity. Qed.

Example Split_edges : GoStrings.Split "/a//b/" "/" = [""; "a"; ""; "b"; ""].
Proof. reflexivity. Qed.

Example schemas_order :
  Annotations.schemas
    [mkAnnotation "_schema:HTTPServer" None; mkAnnotation "User" (Some "u");
     mkAnnotation "_schema:name" (Some ""); mkAnnotation "_schema" None]
  = ["HTTPServer"; "name"].
Proof. reflexivity. Qed.

(** ** Strings *)

#[local] Arguments String.append !_ _ : simpl nomatch.
#[local] Arguments ID.String : simpl never.

Section StringFacts.

Import GoStrings.

Lemma string_length_app (a b : string) :
  String.length (a +:+ b) = (String.length a + String.length b)%nat.
Proof. induction a as [|x a IH]; simpl; [done | by rewrite IH]. Qed.

Lemma string_app_assoc (a b c : string) : (a +:+ b) +:+ c = a +:+ (b +:+ c).
Proof. induction a as [|x a IH]; simpl; [done | by rewrite IH]. Qed.

Lemma string_app_inv_head (a b c : string) : a +:+ b = a +:+ c -> b = c.
Proof. induction a as [|x a IH]; simpl; [done | intros [= H]; auto]. Qed.

Lemma slice_to_app (a b : string) : slice_to (String.length a) (a +:+ b) = a.
Proof. induction a as [|x a IH]; simpl; [done | by rewrite IH]. Qed.

Lemma slice_from_app (a b : string) :
  slice_from (String.length a) (a +:+ b) = b.
Proof. induction a as [|x a IH]; simpl; done. Qed.

Lemma slice_to_from (n : nat) (s : string) : slice_to n s +:+ slice_from n s = s.
Proof.
  revert s; induction n as [|n IH]; intros [|x s]; simpl; try done.
  by rewrite IH.
Qed.

Lemma HasPrefix_byte (s : string) (c : ascii) :
  HasPrefix s (String c EmptyString)
  = match s with String x _ => Ascii.eqb x c | EmptyString => false end.
Proof.
  unfold HasPrefix. destruct s as [|x r]; simpl; [done |].
  by destruct (Ascii.eqb x c).
Qed.

Lemma Index_byte_cons (x c : ascii) (r : string) :
  Index (String x r) (String c EmptyString)
  = if Ascii.eqb x c then Some O else S <$> Index r (String c EmptyString).
Proof.
  change (Index (String x r) (String c EmptyString))
    with (if HasPrefix (String x r) (String c EmptyString) then Some O
          else S <$> Index r (String c EmptyString)).
  by rewrite HasPrefix_byte.
Qed.

(** [Index] of a byte that does not occur. *)
Lemma Index_byte_None (c : ascii) (s : string) :
  Index s (String c EmptyString) = None <-> count_byte c s = O.
Proof.
  induction s as [|x r IH].
  - done.
  - rewrite Index_byte_cons. simpl. destruct (Ascii.eqb x c); simpl.
    + split; [done | lia].
    + rewrite <- IH. destruct (Index r _); simpl; split; done.
Qed.

(** [Index] of a byte cuts the string at its first occurrence. *)
Lemma Index_byte_Some (c : ascii) (s : string) (m : nat) :
  Index s (String c EmptyString) = Some m ->
  exists a b, s = a +:+ String c b /\ String.length a = m /\ count_byte c a = O.
Proof.
  revert m; induction s as [|x r IH]; intros m.
  - done.
  - rewrite Index_byte_cons. destruct (Ascii.eqb_spec x c) as [->|Hne].
    + intros [= <-]. by exists EmptyString, r.
    + destruct (Index r _) as [k|] eqn:Hk; simpl; [|done].
      intros [= <-]. destruct (IH k eq_refl) as (a & b & -> & Hlen & Hfree).
      exists (String x a), b. simpl. rewrite Hlen, Hfree.
      destruct (Ascii.eqb_spec x c); [done | by simpl].
Qed.

Lemma Index_byte_app (c : ascii) (a b : string) :
  count_byte c a = O ->
  Index (a +:+ String c b) (String c EmptyString) = Some (String.length a).
Proof.
  induction a as [|x a IH]; intros Hfree.
  - simpl "+:+". rewrite Index_byte_cons. by rewrite Ascii.eqb_refl.
  - simpl in Hfree. simpl "+:+". rewrite Index_byte_cons.
    destruct (Ascii.eqb x c); [simpl in Hfree; lia |].
    by rewrite IH.
Qed.

Lemma fields_nonempty (c : ascii) (s : string) : fields c s <> [].
Proof.
  induction s as [|x r IH]; simpl; [done |].
  destruct (Ascii.eqb x c); [done |]. by destruct (fields c r).
Qed.

Lemma fields_free (c : ascii) (s : string) :
  count_byte c s = O -> fields c s = [s].
Proof.
  induction s as [|x r IH]; simpl; [done |].
  destruct (Ascii.eqb x c); simpl; [lia |]. intros H. by rewrite IH.
Qed.

Lemma fields_app (c : ascii) (a b : string) :
  count_byte c a = O -> fields c (a +:+ String c b) = a :: fields c b.
Proof.
  induction a as [|x a IH]; simpl.
  - by rewrite Ascii.eqb_refl.
  - destruct (Ascii.eqb x c); simpl; [lia |]. intros H. by rewrite IH.
Qed.

Lemma length_fields (c : ascii) (s : string) :
  length (fields c s) = S (count_byte c s).
Proof.
  induction s as [|x r IH]; simpl; [done |].
  destruct (Ascii.eqb x c); simpl; [by rewrite IH |].
  pose proof (fields_nonempty c r). destruct (fields c r); simpl in *; [done | lia].
Qed.

(** The fuelled loop of [genSplit] computes the components whenever the
    fuel covers the length of the string. *)
Lemma genSplit_fields (c : ascii) (fuel : nat) (s : string) :
  (String.length s <= fuel)%nat ->
  genSplit fuel s (String c EmptyString) = fields c s.
Proof.
  revert s; induction fuel as [|fuel IH]; intros s Hlen.
  - destruct s; simpl in *; [done | lia].
  - simpl. destruct (Index s _) as [m|] eqn:HI.
    + destruct (Index_byte_Some _ _ _ HI) as (a & b & -> & <- & Hfree).
      rewrite fields_app by done. rewrite slice_to_app. f_equal.
      replace (String.length a + 1)%nat
        with (String.length (a +:+ String c EmptyString))
        by (rewrite string_length_app; simpl; lia).
      replace (a +:+ String c b) with ((a +:+ String c EmptyString) +:+ b)
        by (by rewrite string_app_assoc).
      rewrite slice_from_app. apply IH.
      rewrite string_length_app in Hlen. simpl in Hlen. lia.
    + apply Index_byte_None in HI. by rewrite fields_free.
Qed.


Lemma Split_fields (c : ascii) (s : string) :
  Split s (String c EmptyString) = fields c s.
Proof. unfold Split. by apply genSplit_fields. Qed.

Lemma count_byte_app (c : ascii) (a b : string) :
  count_byte c (a +:+ b) = (count_byte c a + count_byte c b)%nat.
Proof. induction a as [|x a IH]; simpl; [done | rewrite IH; lia]. Qed.

End StringFacts.

(** ** Identifiers *)

Section IdentifierFacts.

Import GoStrings.

Lemma nibble_cases (d : N) :
  (d < 16)%N ->
  d = 0%N \/ d = 1%N \/ d = 2%N \/ d = 3%N \/ d = 4%N \/ d = 5%N \/ d = 6%N
  \/ d = 7%N \/ d = 8%N \/ d = 9%N \/ d = 10%N \/ d = 11%N \/ d = 12%N
  \/ d = 13%N \/ d = 14%N \/ d = 15%N.
Proof. lia. Qed.

Lemma hex_value_hex_digit (d : N) :
  (d < 16)%N -> ID.hex_value (ID.hex_digit d) = Some d.
Proof.
  intros H. apply nibble_cases in H.
  repeat (destruct H as [-> | H]; [reflexivity |]). by subst.
Qed.

Lemma hex_digit_not_slash (d : N) : Ascii.eqb (ID.hex_digit d) "/" = false.
Proof.
  unfold ID.hex_digit. generalize (N.to_nat d). intros n.
  do 16 (destruct n as [|n]; [reflexivity |]). reflexivity.
Qed.

Lemma length_hex_pad (w : nat) (v : N) : String.length (ID.hex_pad w v) = w.
Proof.
  revert v; induction w as [|w IH]; intros v; simpl; [done |].
  rewrite string_length_app, IH. simpl. lia.
Qed.

Lemma hex_pad_no_slash (w : nat) (v : N) :
  count_byte "/" (ID.hex_pad w v) = O.
Proof.
  revert v; induction w as [|w IH]; intros v; simpl; [done |].
  rewrite count_byte_app, IH. simpl. by rewrite hex_digit_not_slash.
Qed.

Lemma parse_hex_app (a b : string) (acc : N) :
  ID.parse_hex acc (a +:+ b) = ID.parse_hex acc a ≫= fun x => ID.parse_hex x b.
Proof.
  revert acc; induction a as [|c a IH]; intros acc; simpl; [done |].
  destruct (ID.hex_value c); simpl; [apply IH | done].
Qed.

Lemma parse_hex_hex_pad (w : nat) (v acc : N) :
  ID.parse_hex acc (ID.hex_pad w v)
  = Some (acc * 16 ^ N.of_nat w + v mod 16 ^ N.of_nat w)%N.
Proof.
  revert v acc; induction w as [|w IH]; intros v acc.
  - simpl. f_equal. rewrite N.mod_1_r. lia.
  - cbn [ID.hex_pad]. rewrite parse_hex_app, IH. cbn [mbind option_bind].
    cbn [ID.parse_hex]. rewrite hex_value_hex_digit
      by (apply N.mod_upper_bound; lia).
    f_equal. rewrite Nat2N.inj_succ, N.pow_succ_r'.
    rewrite (N.Div0.mod_mul_r v 16 (16 ^ N.of_nat w)). lia.
Qed.

Lemma hex_value_is_Some (c : ascii) :
  is_Some (ID.hex_value c) <-> ID.is_hex_char c.
Proof.
  unfold ID.hex_value, ID.is_hex_char. cbv zeta.
  generalize (N_of_ascii c); intros n.
  destruct (N.leb_spec 48 n), (N.leb_spec n 57), (N.leb_spec 97 n),
    (N.leb_spec n 102), (N.leb_spec 65 n), (N.leb_spec n 70);
    simpl; split; intros Hc;
    try (by eexists); try (destruct Hc as [? Hc]; discriminate Hc);
    try lia; exfalso; lia.
Qed.

Lemma hex_value_bound (c : ascii) (d : N) :
  ID.hex_value c = Some d -> (d < 16)%N.
Proof.
  unfold ID.hex_value. cbv zeta. generalize (N_of_ascii c); intros n.
  destruct (N.leb_spec 48 n), (N.leb_spec n 57), (N.leb_spec 97 n),
    (N.leb_spec n 102), (N.leb_spec 65 n), (N.leb_spec n 70);
    simpl; intros [= <-]; lia.
Qed.

Lemma parse_hex_is_Some (s : string) (acc : N) :
  is_Some (ID.parse_hex acc s)
  <-> Forall ID.is_hex_char (list_ascii_of_string s).
Proof.
  revert acc; induction s as [|c s IH]; intros acc; simpl.
  - split; [constructor | by eexists].
  - rewrite Forall_cons, <- hex_value_is_Some.
    destruct (ID.hex_value c) as [d|]; simpl.
    + rewrite IH. split; [by split | by intros []].
    + split; [by intros [] | by intros [[]]].
Qed.

Lemma parse_hex_bound (s : string) (acc v : N) (k : nat) :
  ID.parse_hex acc s = Some v ->
  (acc < 16 ^ N.of_nat k)%N ->
  (v < 16 ^ N.of_nat (k + String.length s))%N.
Proof.
  revert acc k; induction s as [|c s IH]; intros acc k; simpl.
  - intros [= <-]. by rewrite Nat.add_0_r.
  - destruct (ID.hex_value c) as [d|] eqn:Hd; [|done].
    intros Hp Hacc. apply hex_value_bound in Hd.
    replace (k + S (String.length s))%nat with (S k + String.length s)%nat by lia.
    apply (IH _ _ Hp). rewrite Nat2N.inj_succ, N.pow_succ_r'. lia.
Qed.

(** [ParseID] inverts [ID.String] on every 64-bit value. *)
Lemma ParseID_String (i : ID.t) : ID.valid i -> ParseID (ID.String i) = (i, None).
Proof.
  intros Hi. unfold ParseID, ID.String. rewrite length_hex_pad. simpl Nat.eqb.
  cbv iota. rewrite parse_hex_hex_pad. do 2 f_equal.
  rewrite N.mul_0_l, N.add_0_l. apply N.mod_small. exact Hi.
Qed.

(** [ParseID] accepts exactly the strings of 16 hexadecimal digits, and
    what it returns for them is a 64-bit value. *)
Lemma ParseID_accepts (s : string) :
  ID.is_hex16 s -> exists v, ParseID s = (v, None) /\ ID.valid v.
Proof.
  intros [Hlen Hhex]. unfold ParseID. rewrite Hlen. simpl Nat.eqb. cbv iota.
  apply (parse_hex_is_Some s 0%N) in Hhex. destruct Hhex as [v Hv].
  rewrite Hv. exists v. split; [done |].
  apply (parse_hex_bound s 0%N v 0) in Hv; [|simpl; lia].
  rewrite Hlen in Hv. exact Hv.
Qed.

Lemma ParseID_rejects (s : string) :
  ~ ID.is_hex16 s -> ParseID s = (0%N, Some (ErrParseID s)).
Proof.
  intros Hn. unfold ParseID.
  destruct (Nat.eqb_spec (String.length s) 16) as [Hlen|]; [|done].
  destruct (ID.parse_hex 0 s) as [v|] eqn:Hv; [|done].
  exfalso. apply Hn. split; [done |].
  apply (parse_hex_is_Some s 0%N). by eexists.
Qed.

Lemma ParseID_ok_inv (s : string) (v : ID.t) :
  ParseID s = (v, None) -> ID.is_hex16 s /\ ID.valid v.
Proof.
  unfold ParseID.
  destruct (Nat.eqb_spec (String.length s) 16) as [Hlen|]; [|done].
  destruct (ID.parse_hex 0 s) as [w|] eqn:Hw; [|done].
  intros [= <-]. split.
  - split; [done |]. apply (parse_hex_is_Some s 0%N). by eexists.
  - apply (parse_hex_bound s 0%N w 0) in Hw; [|simpl; lia].
    rewrite Hlen in Hw. exact Hw.
Qed.

End IdentifierFacts.

(** ** Span identifiers *)

Section SpanIDFacts.

Import GoStrings.

Lemma hex_char_not_slash (c : ascii) :
  ID.is_hex_char c -> Ascii.eqb c "/" = false.
Proof.
  intros H. destruct (Ascii.eqb_spec c "/") as [->|]; [|done].
  exfalso. unfold ID.is_hex_char in H. vm_compute in H.
  destruct H as [[H _]|[[H _]|[H _]]]; by apply H.
Qed.

Lemma hex16_no_slash (s : string) : ID.is_hex16 s -> count_byte "/" s = O.
Proof.
  intros [_ H]. induction s as [|c s IH]; simpl in *; [done |].
  inversion H as [|? ? Hc Hs]; subst.
  by rewrite (hex_char_not_slash c Hc), IH.
Qed.

Lemma ID_String_no_slash (i : ID.t) : count_byte "/" (ID.String i) = O.
Proof. apply hex_pad_no_slash. Qed.

Lemma length_ID_String (i : ID.t) : String.length (ID.String i) = 16%nat.
Proof. apply length_hex_pad. Qed.

Lemma Split_two (a b : string) :
  count_byte "/" a = O -> count_byte "/" b = O ->
  Split (a +:+ SpanIDDelimiter +:+ b) SpanIDDelimiter = [a; b].
Proof.
  intros Ha Hb. unfold SpanIDDelimiter. rewrite Split_fields. simpl.
  by rewrite fields_app, fields_free.
Qed.

Lemma Split_three (a b c : string) :
  count_byte "/" a = O -> count_byte "/" b = O -> count_byte "/" c = O ->
  Split (a +:+ SpanIDDelimiter +:+ b +:+ SpanIDDelimiter +:+ c) SpanIDDelimiter
  = [a; b; c].
Proof.
  intros Ha Hb Hc. unfold SpanIDDelimiter. rewrite Split_fields. simpl.
  by rewrite !fields_app, fields_free.
Qed.

(** [ParseSpanID] by cases on the components of its argument. *)
Lemma ParseSpanID_cases (s : string) :
  ParseSpanID s =
  match Split s SpanIDDelimiter with
  | [a; b] =>
      match ParseID a, ParseID b with
      | (root, None), (id, None) => (Some (SpanID.mk root id 0%N), None)
      | _, _ => (None, Some ErrBadSpanID)
      end
  | [a; b; c] =>
      match ParseID a, ParseID b, ParseID c with
      | (root, None), (id, None), (parent, None) =>
          (Some (SpanID.mk root id parent), None)
      | _, _, _ => (None, Some ErrBadSpanID)
      end
  | _ => (None, Some ErrBadSpanID)
  end.
Proof.
  unfold ParseSpanID. cbv zeta.
  by destruct (Split s SpanIDDelimiter) as [|a [|b [|c [|d l]]]].
Qed.

Lemma ParseSpanID_result (s : string) :
  ParseSpanID s = (None, Some ErrBadSpanID)
  \/ exists id, ParseSpanID s = (Some id, None).
Proof.
  rewrite ParseSpanID_cases.
  destruct (Split s SpanIDDelimiter) as [|a [|b [|c [|d l]]]]; auto.
  - destruct (ParseID a) as [? []], (ParseID b) as [? []]; eauto.
  - destruct (ParseID a) as [? []], (ParseID b) as [? []],
      (ParseID c) as [? []]; eauto.
Qed.

End SpanIDFacts.

(** C1.  For every span identifier [s] (its three fields any 64-bit values,
    a zero parent included), [ParseSpanID] applied to [s.String()] succeeds
    with a nil error and returns an identifier equal to [s]; and
    [s.IsRoot()] is true if and only if [s.Parent] is zero. *)
Theorem C1_ParseSpanID_String (s : SpanID.t) :
  SpanID.valid s ->
  ParseSpanID (SpanID.String s) = (Some s, None)
  /\ (SpanID.IsRoot s = true <-> SpanID.Parent s = 0%N).
Proof.
  destruct s as [t sp p]. intros (Ht & Hs & Hp); simpl in *. split.
  - rewrite ParseSpanID_cases. unfold SpanID.String.
    cbn [SpanID.Parent SpanID.Trace SpanID.Span].
    destruct (N.eqb_spec p 0) as [->|Hne].
    + rewrite Split_two by apply ID_String_no_slash.
      by rewrite !ParseID_String.
    + rewrite Split_three by apply ID_String_no_slash.
      by rewrite !ParseID_String.
  - unfold SpanID.IsRoot; simpl. apply N.eqb_eq.
Qed.

Lemma C1_ParseSpanID_String_witness :
  ParseSpanID (SpanID.String (SpanID.mk 1 2 3)) = (Some (SpanID.mk 1 2 3), None)
  /\ (SpanID.IsRoot (SpanID.mk 1 2 3) = true <-> SpanID.Parent (SpanID.mk 1 2 3) = 0%N).
Proof.
  apply (C1_ParseSpanID_String (SpanID.mk 1 2 3)).
  unfold SpanID.valid, ID.valid; simpl. repeat split; reflexivity.
Defined.

(** C2.  Let [parts] be the slash-separated components of [s].  If their
    number is neither 2 nor 3, or some component is not a string of 16
    hexadecimal digits, [ParseSpanID] fails: it returns the nil pointer and
    the sentinel [ErrBadSpanID], whichever component was malformed.  In any
    case the result is either that failure or a span identifier with a nil
    error.  The number of components is one more than the number of
    slashes. *)
Theorem C2_ParseSpanID_malformed (s : string) :
  let parts := GoStrings.Split s SpanIDDelimiter in
  ((length parts <> 2%nat /\ length parts <> 3%nat)
   \/ Exists (fun p => ~ ID.is_hex16 p) parts ->
   ParseSpanID s = (None, Some ErrBadSpanID))
  /\ (ParseSpanID s = (None, Some ErrBadSpanID)
      \/ exists id, ParseSpanID s = (Some id, None))
  /\ length parts = S (GoStrings.count_byte "/" s).
Proof.
  intros parts. split; [|split; [apply ParseSpanID_result |]]; cycle 1.
  { subst parts. unfold SpanIDDelimiter. by rewrite Split_fields, length_fields. }
  rewrite ParseSpanID_cases. fold parts.
  destruct parts as [|a [|b [|c [|d l]]]]; try done.
  - intros [[H _]|H]; [done |].
    rewrite !Exists_cons, Exists_nil in H.
    destruct H as [H|[H|[]]]; rewrite (ParseID_rejects _ H); [done |].
    by destruct (ParseID a) as [? []].
  - intros [[_ H]|H]; [done |].
    rewrite !Exists_cons, Exists_nil in H.
    destruct H as [H|[H|[H|[]]]]; rewrite (ParseID_rejects _ H); [done | |].
    + by destruct (ParseID a) as [? []].
    + by destruct (ParseID a) as [? []], (ParseID b) as [? []].
Qed.

Lemma C2_ParseSpanID_malformed_witness :
  ParseSpanID "0000000000000001/2" = (None, Some ErrBadSpanID)
  /\ ParseSpanID "0000000000000001" = (None, Some ErrBadSpanID).
Proof.
  split.
  - apply (C2_ParseSpanID_malformed "0000000000000001/2").
    right. apply Exists_cons_tl, Exists_cons_hd.
    intros [Hlen _]. vm_compute in Hlen. discriminate Hlen.
  - apply (C2_ParseSpanID_malformed "0000000000000001").
    left. vm_compute. split; intros H; discriminate H.
Defined.

(** C3.  Whatever the generator of identifiers returns, the identifier made
    by [NewRootSpanID] has a zero parent (it is a root), and for every
    parent [p] the identifier made by [NewSpanID(p)] has the trace of [p]
    and has the span of [p] as its parent. *)
Theorem C3_NewSpanID {Rand : Type} (generateID : Rand -> ID.t * Rand)
    (p : SpanID.t) (r : Rand) :
  SpanID.Parent (NewRootSpanID generateID r).1 = 0%N
  /\ SpanID.IsRoot (NewRootSpanID generateID r).1 = true
  /\ SpanID.Trace (NewSpanID generateID p r).1 = SpanID.Trace p
  /\ SpanID.Parent (NewSpanID generateID p r).1 = SpanID.Span p.
Proof.
  unfold NewRootSpanID, NewSpanID.
  destruct (generateID r) as [i r1]. by destruct (generateID r1) as [j r2].
Qed.

(** C4.  For every span identifier [s], [s.String()] is the two components
    hex(Trace)/hex(Span) when the parent is zero and the three components
    hex(Trace)/hex(Span)/hex(Parent) otherwise; for a root the parent is
    left out, it is not written as a third component of zeros. *)
Theorem C4_SpanID_String (s : SpanID.t) :
  let trace := ID.String (SpanID.Trace s) in
  let span := ID.String (SpanID.Span s) in
  let parent := ID.String (SpanID.Parent s) in
  (SpanID.Parent s = 0%N ->
   SpanID.String s = trace +:+ "/" +:+ span
   /\ GoStrings.Split (SpanID.String s) "/" = [trace; span]
   /\ SpanID.String s <> trace +:+ "/" +:+ span +:+ "/" +:+ "0000000000000000")
  /\ (SpanID.Parent s <> 0%N ->
      SpanID.String s = trace +:+ "/" +:+ span +:+ "/" +:+ parent
      /\ GoStrings.Split (SpanID.String s) "/" = [trace; span; parent]).
Proof.
  intros trace span parent. unfold SpanID.String. split.
  - intros ->. change (0 =? 0)%N with true. cbv iota. split; [done |]. split.
    + apply Split_two; apply ID_String_no_slash.
    + intros H. apply (f_equal String.length) in H.
      rewrite !string_length_app in H. simpl in H. lia.
  - intros Hne. destruct (N.eqb_spec (SpanID.Parent s) 0) as [|_]; [done |].
    split; [done |]. apply Split_three; apply ID_String_no_slash.
Qed.

Lemma C4_SpanID_String_witness :
  SpanID.String (SpanID.mk 1 2 0) = "0000000000000001/0000000000000002"
  /\ SpanID.String (SpanID.mk 1 2 3)
     = "0000000000000001/0000000000000002/0000000000000003".
Proof.
  split.
  - apply (C4_SpanID_String (SpanID.mk 1 2 0)). reflexivity.
  - apply (C4_SpanID_String (SpanID.mk 1 2 3)). simpl. discriminate.
Defined.

(** C9.  The round trip from strings does not hold.  For all strings [a]
    and [b] of 16 hexadecimal digits, the three-component string [t] made of
    [a], [b] and sixteen zeros is accepted by [ParseSpanID], but the
    identifier it returns has a zero parent and its [String()] is the
    two-component root form, which differs from [t]. *)
Theorem C9_String_ParseSpanID_not_inverse (a b : string) :
  ID.is_hex16 a -> ID.is_hex16 b ->
  let t := a +:+ "/" +:+ b +:+ "/" +:+ "0000000000000000" in
  exists id,
    ParseSpanID t = (Some id, None)
    /\ SpanID.Parent id = 0%N
    /\ GoStrings.Split (SpanID.String id) "/" = [ID.String (SpanID.Trace id); ID.String (SpanID.Span id)]
    /\ SpanID.String id <> t.
Proof.
  intros Ha Hb t.
  destruct (ParseID_accepts a Ha) as (va & Hva & _).
  destruct (ParseID_accepts b Hb) as (vb & Hvb & _).
  exists (SpanID.mk va vb 0). split; [|split; [done | split]].
  - rewrite ParseSpanID_cases. subst t.
    pose proof (Split_three a b "0000000000000000"
                  (hex16_no_slash a Ha) (hex16_no_slash b Hb) eq_refl) as HS.
    unfold SpanIDDelimiter in HS |- *. rewrite HS.
    by rewrite Hva, Hvb.
  - unfold SpanID.String. cbn [SpanID.Parent SpanID.Trace SpanID.Span].
    change (0 =? 0)%N with true. cbv iota.
    apply Split_two; apply ID_String_no_slash.
  - intros H. apply (f_equal String.length) in H. subst t.
    unfold SpanID.String in H. cbn [SpanID.Parent SpanID.Trace SpanID.Span] in H.
    change (0 =? 0)%N with true in H. cbv iota in H.
    rewrite !string_length_app, !length_ID_String in H.
    destruct Ha as [Hla _], Hb as [Hlb _]. rewrite Hla, Hlb in H.
    simpl in H. lia.
Qed.

Lemma C9_String_ParseSpanID_not_inverse_witness :
  exists id,
    ParseSpanID "0000000000000001/0000000000000002/0000000000000000"
    = (Some id, None)
    /\ SpanID.Parent id = 0%N
    /\ GoStrings.Split (SpanID.String id) "/" = [ID.String (SpanID.Trace id); ID.String (SpanID.Span id)]
    /\ SpanID.String id
       <> "0000000000000001/0000000000000002/0000000000000000".
Proof.
  apply (C9_String_ParseSpanID_not_inverse
           "0000000000000001" "0000000000000002").
  - exact (proj1 (ParseID_ok_inv "0000000000000001" 1%N eq_refl)).
  - exact (proj1 (ParseID_ok_inv "0000000000000002" 2%N eq_refl)).
Defined.

(** ** Annotation lists *)

Section AnnotationFacts.

Import GoStrings.

Implicit Types (anns : Annotations.t) (key : string) (a : Annotation).

Lemma get_skip anns1 anns2 key :
  Forall (fun x => Key x <> key) anns1 ->
  Annotations.get (anns1 ++ anns2)%list key = Annotations.get anns2 key.
Proof.
  induction 1 as [|x l Hx _ IH]; simpl; [done |].
  by destruct (String.eqb_spec (Key x) key).
Qed.

Lemma Name_loop_skip anns1 anns2 :
  Forall (fun x => Key x <> nameKey) anns1 ->
  Span.Name_loop (anns1 ++ anns2)%list = Span.Name_loop anns2.
Proof.
  induction 1 as [|x l Hx _ IH]; simpl; [done |].
  by destruct (String.eqb_spec (Key x) nameKey).
Qed.

Lemma Name_loop_get anns :
  Span.Name_loop anns = string_of_bytes (Annotations.get anns nameKey).
Proof.
  induction anns as [|x l IH]; simpl; [done |].
  by destruct (String.eqb (Key x) nameKey).
Qed.

Lemma StringMap_loop_skip (m : gmap string string) anns key :
  Forall (fun x => Key x <> key) anns ->
  Annotations.StringMap_loop m anns !! key = m !! key.
Proof.
  unfold Annotations.StringMap_loop. intros H. revert m. induction H as [|x l Hx _ IH]; intros m; simpl; [done |].
  rewrite IH. by rewrite lookup_insert_ne.
Qed.

Lemma StringMap_loop_app (m : gmap string string) anns1 anns2 :
  Annotations.StringMap_loop m (anns1 ++ anns2)%list
  = Annotations.StringMap_loop (Annotations.StringMap_loop m anns1) anns2.
Proof. apply fold_left_app. Qed.

Lemma StringMap_loop_cons (m : gmap string string) a anns :
  Annotations.StringMap_loop m (a :: anns)
  = Annotations.StringMap_loop (<[Key a := string_of_bytes (Value a)]> m) anns.
Proof. done. Qed.

Lemma strip_prefix_Some (p s r : string) :
  strip_prefix p s = Some r <-> s = p +:+ r.
Proof.
  revert s; induction p as [|c p IH]; intros s; simpl.
  - split; [by intros [= ->] | by intros ->].
  - destruct s as [|d s]; [done |].
    destruct (Ascii.eqb_spec c d) as [->|Hne].
    + rewrite IH. split; [by intros -> | by intros [= ->]].
    + split; [done | intros [= ? ?]; by subst].
Qed.

Lemma slice_to_length_le (n : nat) (s : string) :
  (n <= String.length s)%nat -> String.length (slice_to n s) = n.
Proof.
  revert s; induction n as [|n IH]; intros [|x s]; simpl; try done; try lia.
  intros H. rewrite IH; lia.
Qed.

(** [HasPrefix] and the slice taken after it, against [strip_prefix]. *)
Lemma HasPrefix_strip (s p : string) :
  (if HasPrefix s p then Some (slice_from (String.length p) s) else None)
  = strip_prefix p s.
Proof.
  unfold HasPrefix. revert s; induction p as [|c p IH]; intros s.
  - by destruct s.
  - destruct s as [|d s]; [done |]. specialize (IH s). simpl in *.
    rewrite (Ascii.eqb_sym d c).
    destruct (Ascii.eqb c d); [|by rewrite andb_false_r].
    exact IH.
Qed.

Lemma schemas_from (acc : list string) anns :
  fold_left
    (fun schemas a =>
       if HasPrefix (Key a) schemaPrefix
       then (schemas ++ [slice_from (String.length schemaPrefix) (Key a)])%list
       else schemas)
    anns acc
  = (acc ++ schemas_spec anns)%list.
Proof.
  revert acc; induction anns as [|a l IH]; intros acc.
  - simpl. by rewrite app_nil_r.
  - cbn [fold_left schemas_spec]. rewrite IH.
    pose proof (HasPrefix_strip (Key a) schemaPrefix) as Hp.
    change "_schema:" with schemaPrefix.
    destruct (HasPrefix (Key a) schemaPrefix); rewrite <- Hp; [|done].
    by rewrite <- app_assoc.
Qed.

End AnnotationFacts.

(** C5.  For every annotation list and key: [get] returns the value of the
    first annotation, in list order, whose key is the given one, and nil
    when no annotation has that key; [StringMap] maps the key to the value
    (as a string) of the last annotation, in list order, that has it, and
    has no entry for a key that does not occur. *)
Theorem C5_get_first_StringMap_last (anns : Annotations.t) (key : string) :
  (forall l1 a l2,
      anns = (l1 ++ a :: l2)%list -> Key a = key ->
      Forall (fun x => Key x <> key) l1 ->
      Annotations.get anns key = Value a)
  /\ (Forall (fun x => Key x <> key) anns -> Annotations.get anns key = None)
  /\ (forall l1 a l2,
         anns = (l1 ++ a :: l2)%list -> Key a = key ->
         Forall (fun x => Key x <> key) l2 ->
         Annotations.StringMap anns !! key = Some (string_of_bytes (Value a)))
  /\ (Forall (fun x => Key x <> key) anns ->
      Annotations.StringMap anns !! key = None).
Proof.
  repeat split.
  - intros l1 a l2 -> <- H1. rewrite get_skip by done. simpl.
    by rewrite String.eqb_refl.
  - intros H. rewrite <- (app_nil_r anns). by rewrite get_skip.
  - intros l1 a l2 -> <- H2. unfold Annotations.StringMap.
    rewrite StringMap_loop_app, StringMap_loop_cons, StringMap_loop_skip by done.
    apply lookup_insert_eq.
  - intros H. unfold Annotations.StringMap. by rewrite StringMap_loop_skip.
Qed.

Lemma C5_get_first_StringMap_last_witness :
  let anns := [mkAnnotation "k" (Some "1"); mkAnnotation "j" None;
               mkAnnotation "k" (Some "2")] in
  Annotations.get anns "k" = Some "1"
  /\ Annotations.StringMap anns !! "k" = Some "2"
  /\ Annotations.get anns "z" = None
  /\ Annotations.StringMap anns !! "z" = None.
Proof.
  intros anns.
  destruct (C5_get_first_StringMap_last anns "k") as (Hg & _ & Hm & _).
  destruct (C5_get_first_StringMap_last anns "z") as (_ & Hg0 & _ & Hm0).
  split; [|split; [|split]].
  - apply (Hg [] (mkAnnotation "k" (Some "1"))
             [mkAnnotation "j" None; mkAnnotation "k" (Some "2")]);
      [reflexivity | reflexivity | constructor].
  - apply (Hm [mkAnnotation "k" (Some "1"); mkAnnotation "j" None]
             (mkAnnotation "k" (Some "2")) []);
      [reflexivity | reflexivity | constructor].
  - apply Hg0. repeat constructor; simpl; discriminate.
  - apply Hm0. repeat constructor; simpl; discriminate.
Defined.

(** C6.  For every annotation list, [schemas] returns, in the order of the
    list, the names left when the prefix [_schema:] is stripped from the
    keys that start with it; an annotation whose key does not start with
    the prefix contributes nothing. *)
Theorem C6_schemas (anns : Annotations.t) :
  Annotations.schemas anns = schemas_spec anns
  /\ (forall a name, Key a = "_schema:" +:+ name ->
        Annotations.schemas (a :: anns) = name :: Annotations.schemas anns)
  /\ (forall a, (forall name, Key a <> "_schema:" +:+ name) ->
        Annotations.schemas (a :: anns) = Annotations.schemas anns).
Proof.
  assert (Heq : forall l, Annotations.schemas l = schemas_spec l).
  { intros l. unfold Annotations.schemas. by rewrite schemas_from. }
  split; [apply Heq | split].
  - intros a name Hk. rewrite !Heq. cbn [schemas_spec].
    by rewrite (proj2 (strip_prefix_Some "_schema:" (Key a) name) Hk).
  - intros a Hk. rewrite !Heq. cbn [schemas_spec].
    destruct (strip_prefix "_schema:" (Key a)) as [name|] eqn:Hs; [|done].
    apply strip_prefix_Some in Hs. by destruct (Hk name).
Qed.

(** C10.  For every span [s], [s.Name()] is the value, as a string, of the
    first annotation of [s] whose key is exactly [name], whatever
    annotations follow it, and the empty string when no annotation has that
    key; it is the string of what [get] returns for that key. *)
Theorem C10_Span_Name (s : Span.t) :
  (forall l1 a l2,
      Span.Annotations s = (l1 ++ a :: l2)%list -> Key a = "name" ->
      Forall (fun x => Key x <> "name") l1 ->
      Span.Name s = string_of_bytes (Value a))
  /\ (Forall (fun x => Key x <> "name") (Span.Annotations s) ->
      Span.Name s = "")
  /\ Span.Name s = string_of_bytes (Annotations.get (Span.Annotations s) "name").
Proof.
  unfold Span.Name. split; [|split; [|apply Name_loop_get]].
  - intros l1 a l2 -> Ha H1. rewrite Name_loop_skip by done. simpl.
    by rewrite Ha.
  - intros H. rewrite <- (app_nil_r (Span.Annotations s)).
    by rewrite Name_loop_skip.
Qed.

Lemma C10_Span_Name_witness :
  Span.Name
    (Span.mk (SpanID.mk 1 2 0)
       [mkAnnotation "Name" (Some "x"); mkAnnotation "name" (Some "first");
        mkAnnotation "name" (Some "second")]) = "first"
  /\ Span.Name (Span.mk (SpanID.mk 1 2 0) [mkAnnotation "Name" (Some "x")]) = "".
Proof.
  split.
  - apply (proj1 (C10_Span_Name _) [mkAnnotation "Name" (Some "x")]
             (mkAnnotation "name" (Some "first"))
             [mkAnnotation "name" (Some "second")]);
      [reflexivity | reflexivity |].
    repeat constructor; simpl; discriminate.
  - apply (proj1 (proj2 (C10_Span_Name _))).
    repeat constructor; simpl; discriminate.
Defined.

(** ** The event codec: decoding *)


Section DecodeFacts.

Context {Time : Type} (parseTime : string -> option Time).

Implicit Types (e : value Time) (path : list string) (raw : string).









End DecodeFacts.




(** ** The event codec: encoding the HTTP server event *)

Section EncodeFacts.

Context {Time : Type} (formatTime : Time -> string) (zeroTime : Time).

(** The annotations of a new server event, in the order of emission. *)
Lemma MarshalEvent_NewServerEvent (r : HTTPRequest.t) :
  MarshalEvent formatTime ServerEvent.Schema
    (ServerEvent.to_value (NewServerEvent zeroTime r))
  = Ok ([mkAnnotation "_schema:HTTPServer" None;
         mkAnnotation "Request.Method" (Some (HTTPRequest.Method r));
         mkAnnotation "Request.URI" (Some (HTTPRequest.RequestURI r));
         mkAnnotation "Request.Proto" (Some (HTTPRequest.Proto r))]
        ++ (header_annotation
              <$> map_to_list
                    (redactHeaders (HTTPRequest.Header r) (HTTPRequest.Trailer r)))
        ++ [mkAnnotation "Request.Host" (Some (HTTPRequest.Host r));
            mkAnnotation "Request.RemoteAddr" (Some (HTTPRequest.RemoteAddr r));
            mkAnnotation "Request.ContentLength"
              (Some (format_int (HTTPRequest.ContentLength r)));
            mkAnnotation "Response.ContentLength" (Some "0");
            mkAnnotation "Response.StatusCode" (Some "0");
            mkAnnotation "Route" (Some "");
            mkAnnotation "User" (Some "");
            mkAnnotation "ServerRecv" (Some (formatTime zeroTime));
            mkAnnotation "ServerSend" (Some (formatTime zeroTime))])%list.
Proof.
  unfold MarshalEvent, ServerEvent.to_value, NewServerEvent. simpl.
  rewrite map_to_list_empty. simpl. rewrite <- app_assoc.
  reflexivity.
Qed.

(** The merged and redacted headers, entry by entry. *)
Lemma lookup_redactHeaders (header trailer : gmap string string) (k : string) :
  redactHeaders header trailer !! k
  = (fun v => if isRedacted k then redactionMarker else v)
      <$> (trailer ∪ header) !! k.
Proof.
  unfold redactHeaders, mergeHeaders. simpl.
  rewrite map_lookup_imap, (right_id_L ∅ (∪)).
  by destruct ((trailer ∪ header) !! k).
Qed.

Lemma header_key_inj (k k' : string) :
  "Request.Headers." +:+ k = "Request.Headers." +:+ k' -> k = k'.
Proof. apply string_app_inv_head. Qed.

Lemma filter_key_none (key : string) (anns : list Annotation) :
  Forall (fun a => Key a <> key) anns ->
  filter (fun a => Key a = key) anns = [].
Proof.
  induction 1 as [|a l Ha _ IH]; [done |]. by rewrite filter_cons_False.
Qed.

Lemma filter_header_absent (l : list (string * string)) (k : string) :
  k ∉ l.*1 ->
  filter (fun a => Key a = "Request.Headers." +:+ k) (header_annotation <$> l)
  = [].
Proof.
  intros Hk. apply filter_key_none. apply Forall_fmap, Forall_forall.
  intros [k' v'] Hin Heq. apply header_key_inj in Heq. simpl in Heq. subst k'.
  apply Hk. apply list_elem_of_fmap. by exists (k, v').
Qed.

Lemma filter_header_present (l : list (string * string)) (k v : string) :
  NoDup l.*1 -> (k, v) ∈ l ->
  filter (fun a => Key a = "Request.Headers." +:+ k) (header_annotation <$> l)
  = [header_annotation (k, v)].
Proof.
  induction l as [|[k' v'] l IH]; intros Hnd Hin.
  - by apply elem_of_nil in Hin.
  - rewrite fmap_cons in Hnd. rewrite fmap_cons.
    apply NoDup_cons in Hnd as [Hk' Hnd]. apply elem_of_cons in Hin as [Heq|Hin].
    + injection Heq as <- <-. rewrite filter_cons_True by done.
      by rewrite filter_header_absent.
    + rewrite filter_cons_False; [by apply IH |].
      intros Heq. apply header_key_inj in Heq. simpl in Heq. subst k'.
      apply Hk'. apply list_elem_of_fmap. by exists (k, v).
Qed.

(** Among the annotations of a new server event, those of one header. *)
Lemma filter_MarshalEvent_header (r : HTTPRequest.t) (k : string)
    (anns : list Annotation) :
  MarshalEvent formatTime ServerEvent.Schema
    (ServerEvent.to_value (NewServerEvent zeroTime r)) = Ok anns ->
  filter (fun a => Key a = "Request.Headers." +:+ k) anns
  = match (HTTPRequest.Trailer r ∪ HTTPRequest.Header r) !! k with
    | Some v =>
        [mkAnnotation ("Request.Headers." +:+ k)
           (Some (if isRedacted k then redactionMarker else v))]
    | None => []
    end.
Proof.
  rewrite MarshalEvent_NewServerEvent. intros [= <-].
  rewrite !filter_cons_False by (simpl; discriminate).
  rewrite filter_app.
  rewrite (filter_key_none _ [_; _; _; _; _; _; _; _; _])
    by (repeat constructor; simpl; discriminate).
  rewrite app_nil_r.
  pose proof (lookup_redactHeaders (HTTPRequest.Header r)
                (HTTPRequest.Trailer r) k) as Hk.
  destruct ((HTTPRequest.Trailer r ∪ HTTPRequest.Header r) !! k) as [v|];
    simpl in Hk.
  - apply elem_of_map_to_list in Hk.
    rewrite (filter_header_present _ k _ (NoDup_fst_map_to_list _) Hk).
    done.
  - apply filter_header_absent. intros Hin.
    apply list_elem_of_fmap in Hin as ([k' v'] & -> & Hin).
    apply elem_of_map_to_list in Hin. simpl in *. congruence.
Qed.

End EncodeFacts.

(** C7.  Marshaling a server event built from a request always succeeds,
    and for every header name [k] the annotations emitted under the key
    [Request.Headers.k] are: exactly one, with the trailer's value, when the
    trailers have [k] (whether or not the primary headers have it too);
    exactly one, with the primary value, when only the primary headers have
    [k]; none when neither has it.  In each case the value is replaced by
    [REDACTED] when [k] is on the deny-list, which holds exactly for the
    names equal to [Authorization] up to letter case, so the original value
    of such a header is not among the annotations of that key. *)
Theorem C7_MarshalEvent_headers {Time : Type} (formatTime : Time -> string)
    (zeroTime : Time) (r : HTTPRequest.t) :
  exists anns : list Annotation,
    MarshalEvent formatTime ServerEvent.Schema
      (ServerEvent.to_value (NewServerEvent zeroTime r)) = Ok anns
    /\ forall k,
         let key := "Request.Headers." +:+ k in
         let emitted := filter (fun a => Key a = key) anns in
         let shown v := if isRedacted k then "REDACTED" else v in
         (forall v, HTTPRequest.Trailer r !! k = Some v ->
                    emitted = [mkAnnotation key (Some (shown v))])
         /\ (forall v, HTTPRequest.Trailer r !! k = None ->
                       HTTPRequest.Header r !! k = Some v ->
                       emitted = [mkAnnotation key (Some (shown v))])
         /\ (HTTPRequest.Trailer r !! k = None ->
             HTTPRequest.Header r !! k = None -> emitted = [])
         /\ (isRedacted k = true <-> lower k = "authorization").
Proof.
  destruct (MarshalEvent formatTime ServerEvent.Schema
              (ServerEvent.to_value (NewServerEvent zeroTime r)))
    as [anns|err] eqn:HM;
    [|by rewrite MarshalEvent_NewServerEvent in HM].
  exists anns. split; [done |].
  intros k key emitted shown. subst emitted key shown.
  rewrite (filter_MarshalEvent_header formatTime zeroTime r k anns HM).
  repeat split.
  - intros v Ht. by rewrite (lookup_union_Some_l _ _ _ _ Ht).
  - intros v Ht Hh. by rewrite lookup_union_r, Hh.
  - intros Ht Hh. by rewrite lookup_union_r, Hh.
  - unfold isRedacted, RedactedHeaders, EqualFold. simpl existsb.
    rewrite orb_false_r. apply String.eqb_eq.
  - unfold isRedacted, RedactedHeaders, EqualFold. simpl existsb.
    rewrite orb_false_r. apply String.eqb_eq.
Qed.

(** [TestNewServerEvent]: the annotations of the request of the test, and
    the map [StringMap] makes of them. *)
Example TestNewServerEvent :
  exists anns,
    MarshalEvent UTC.format ServerEvent.Schema
      (ServerEvent.to_value
         (ServerEvent.set_StatusCode 200 (NewServerEvent UTC.zero test_request)))
    = Ok anns
    /\ Annotations.StringMap anns = test_expected
    /\ Annotations.get anns "Request.Headers.Authorization" = Some "REDACTED"
    /\ Annotations.get anns "Request.Headers.Accept" = Some "application/json"
    /\ Annotations.get anns "Request.Headers.Connection" = Some "close".
Proof.
  eexists. split; [vm_compute; reflexivity |].
  repeat split; vm_compute; reflexivity.
Qed.

(** [TestServerEvent_unmarshal]: the empty key and the two schema markers
    are passed over, the other annotations fill the event. *)
Example TestServerEvent_unmarshal :
  UnmarshalEvent UTC.parse test_annotations
    (ServerEvent.to_value (ServerEvent.zero UTC.zero))
  = Ok (ServerEvent.to_value test_want).
Proof. vm_compute. reflexivity. Qed.

(** A recognised annotation whose value does not decode is an error. *)
Example UnmarshalEvent_decode_error :
  UnmarshalEvent UTC.parse
    [mkAnnotation "" (Some "x"); mkAnnotation "Response.StatusCode" (Some "abc")]
    (ServerEvent.to_value (ServerEvent.zero UTC.zero))
  = Err (ErrDecode "abc").
Proof. vm_compute. reflexivity. Qed.

Lemma C7_MarshalEvent_headers_witness :
  exists anns : list Annotation,
    MarshalEvent UTC.format ServerEvent.Schema
      (ServerEvent.to_value (NewServerEvent UTC.zero test_request)) = Ok anns
    /\ filter (fun a => Key a = "Request.Headers.Authorization") anns
       = [mkAnnotation "Request.Headers.Authorization" (Some "REDACTED")]
    /\ filter (fun a => Key a = "Request.Headers.Connection") anns
       = [mkAnnotation "Request.Headers.Connection" (Some "close")]
    /\ filter (fun a => Key a = "Request.Headers.Accept") anns
       = [mkAnnotation "Request.Headers.Accept" (Some "application/json")]
    /\ filter (fun a => Key a = "Request.Headers.Host") anns = [].
Proof.
  destruct (C7_MarshalEvent_headers UTC.format UTC.zero test_request)
    as (anns & HM & H).
  exists anns. split; [exact HM |]. split; [|split; [|split]].
  - apply (proj1 (H "Authorization") "Basic seeecret"). reflexivity.
  - apply (proj1 (H "Connection") "close"). reflexivity.
  - apply (proj1 (proj2 (H "Accept")) "application/json"); reflexivity.
  - apply (proj1 (proj2 (proj2 (H "Host")))); reflexivity.
Defined.

(* ================================================================== *)
(** * Further properties of the code *)
(* ================================================================== *)

#[local] Open Scope list_scope.

(** ** Span identifiers *)

Section SpanIDMore.

Import GoStrings.

Lemma ParseSpanID_of_String (s : SpanID.t) :
  SpanID.valid s -> ParseSpanID (SpanID.String s) = (Some s, None).
Proof.
  destruct s as [t sp p]. intros (Ht & Hs & Hp); simpl in *.
  rewrite ParseSpanID_cases. unfold SpanID.String.
  cbn [SpanID.Parent SpanID.Trace SpanID.Span].
  destruct (N.eqb_spec p 0) as [->|Hne].
  - rewrite Split_two by apply ID_String_no_slash. by rewrite !ParseID_String.
  - rewrite Split_three by apply ID_String_no_slash. by rewrite !ParseID_String.
Qed.

Lemma ParseSpanID_valid (s : string) (id : SpanID.t) :
  ParseSpanID s = (Some id, None) -> SpanID.valid id.
Proof.
  rewrite ParseSpanID_cases.
  destruct (Split s SpanIDDelimiter) as [|a [|b [|c [|d l]]]]; try done.
  - destruct (ParseID a) as [va [|]] eqn:Ha; [done |].
    destruct (ParseID b) as [vb [|]] eqn:Hb; [done |].
    intros [= <-]. apply ParseID_ok_inv in Ha as [_ Ha].
    apply ParseID_ok_inv in Hb as [_ Hb]. by repeat split.
  - destruct (ParseID a) as [va [|]] eqn:Ha; [done |].
    destruct (ParseID b) as [vb [|]] eqn:Hb; [done |].
    destruct (ParseID c) as [vc [|]] eqn:Hc; [done |].
    intros [= <-]. apply ParseID_ok_inv in Ha as [_ Ha].
    apply ParseID_ok_inv in Hb as [_ Hb]. apply ParseID_ok_inv in Hc as [_ Hc].
    by repeat split.
Qed.

Lemma count_slash_String (s : SpanID.t) :
  count_byte "/" (SpanID.String s) = if SpanID.IsRoot s then 1%nat else 2%nat.
Proof.
  unfold SpanID.String, SpanID.IsRoot, SpanIDDelimiter.
  destruct (SpanID.Parent s =? 0)%N;
    rewrite !count_byte_app, !ID_String_no_slash; reflexivity.
Qed.

End SpanIDMore.

(** X1.  A string that [ParseSpanID] accepts has exactly one or two
    slashes, and with one slash the identifier returned is a root,
    whatever its two components are: the parent stays at its zero value when
    there is no third component. *)
Theorem X1_ParseSpanID_two_components_root (s : string) (id : SpanID.t) :
  ParseSpanID s = (Some id, None) ->
  (GoStrings.count_byte "/" s = 1%nat \/ GoStrings.count_byte "/" s = 2%nat)
  /\ (GoStrings.count_byte "/" s = 1%nat -> SpanID.IsRoot id = true).
Proof.
  rewrite ParseSpanID_cases.
  pose proof (length_fields "/" s) as Hlen.
  unfold SpanIDDelimiter. rewrite Split_fields.
  destruct (GoStrings.fields "/" s) as [|a [|b [|c [|d l]]]]; try done;
    simpl in Hlen; injection Hlen as Hlen.
  - destruct (ParseID a) as [va [|]]; [done |].
    destruct (ParseID b) as [vb [|]]; [done |].
    intros [= <-]. split; [by left | done].
  - destruct (ParseID a) as [va [|]]; [done |].
    destruct (ParseID b) as [vb [|]]; [done |].
    destruct (ParseID c) as [vc [|]]; [done |].
    intros [= <-]. split; [by right | intros H; congruence].
Qed.

Lemma X1_ParseSpanID_two_components_root_witness :
  SpanID.IsRoot (SpanID.mk 1531394028157748708 1261596620690305335 0) = true.
Proof.
  apply (X1_ParseSpanID_two_components_root
           "15409ac1437f45e4/118217713a143137"); reflexivity.
Defined.

(** X2.  Parsing normalises: when [ParseSpanID] accepts a string, the
    fields of the identifier it returns are 64-bit values, and parsing the
    [String()] of that identifier gives the same identifier again. *)
Theorem X2_ParseSpanID_String_ParseSpanID (s : string) (id : SpanID.t) :
  ParseSpanID s = (Some id, None) ->
  SpanID.valid id /\ ParseSpanID (SpanID.String id) = (Some id, None).
Proof.
  intros H. apply ParseSpanID_valid in H. split; [done |].
  by apply ParseSpanID_of_String.
Qed.

Lemma X2_ParseSpanID_String_ParseSpanID_witness :
  SpanID.valid (SpanID.mk 1 2 0)
  /\ ParseSpanID (SpanID.String (SpanID.mk 1 2 0)) = (Some (SpanID.mk 1 2 0), None).
Proof.
  apply (X2_ParseSpanID_String_ParseSpanID
           "0000000000000001/0000000000000002/0000000000000000").
  reflexivity.
Defined.

(** X3.  [String()] is injective on span identifiers with 64-bit fields:
    two identifiers with the same string form are equal. *)
Theorem X3_SpanID_String_injective (s1 s2 : SpanID.t) :
  SpanID.valid s1 -> SpanID.valid s2 ->
  SpanID.String s1 = SpanID.String s2 -> s1 = s2.
Proof.
  intros H1 H2 Heq. apply ParseSpanID_of_String in H1, H2.
  rewrite Heq in H1. congruence.
Qed.

Lemma X3_SpanID_String_injective_witness :
  SpanID.mk 1 2 3 = SpanID.mk 1 2 3.
Proof.
  apply X3_SpanID_String_injective; [| | reflexivity];
    unfold SpanID.valid, ID.valid; simpl; repeat split; reflexivity.
Defined.

(** X4.  The string form of a span identifier has a fixed width and shows
    the root/child distinction by its slashes: 33 bytes and one slash for a
    root, 50 bytes and two slashes for a child. *)
Theorem X4_SpanID_String_shape (s : SpanID.t) :
  String.length (SpanID.String s)
  = (if SpanID.IsRoot s then 33%nat else 50%nat)
  /\ GoStrings.count_byte "/" (SpanID.String s)
     = (if SpanID.IsRoot s then 1%nat else 2%nat).
Proof.
  split; [|apply count_slash_String].
  unfold SpanID.String, SpanID.IsRoot, SpanIDDelimiter.
  destruct (SpanID.Parent s =? 0)%N;
    rewrite !string_length_app, !length_ID_String; reflexivity.
Qed.

(** ** Making span identifiers *)

(** X5.  The identifier made by [NewSpanID] counts as a root exactly when
    the span of its parent is the zero identifier: a child is told from a
    root only by a non-zero parent field, and nothing keeps the generated
    span of the parent away from zero. *)
Theorem X5_NewSpanID_IsRoot {Rand : Type} (generateID : Rand -> ID.t * Rand)
    (p : SpanID.t) (r : Rand) :
  SpanID.IsRoot (NewSpanID generateID p r).1 = true <-> SpanID.Span p = 0%N.
Proof.
  unfold NewSpanID, SpanID.IsRoot. destruct (generateID r) as [i r1]. simpl.
  apply N.eqb_eq.
Qed.

Section DescendFacts.

Context {Rand : Type} (generateID : Rand -> ID.t * Rand).

Lemma descend_S (n : nat) (p : SpanID.t) (r : Rand) :
  descend generateID (S n) p r
  = let '(child, r1) := NewSpanID generateID p r in
    let '(below, r2) := descend generateID n child r1 in
    (child :: below, r2).
Proof. reflexivity. Qed.

Lemma NewSpanID_fields (p child : SpanID.t) (r r1 : Rand) :
  NewSpanID generateID p r = (child, r1) ->
  SpanID.Trace child = SpanID.Trace p /\ SpanID.Parent child = SpanID.Span p.
Proof.
  unfold NewSpanID. destruct (generateID r) as [i r']. by intros [= <- _].
Qed.

Lemma descend_length (n : nat) (p : SpanID.t) (r : Rand) :
  length (descend generateID n p r).1 = n.
Proof.
  revert p r; induction n as [|n IH]; intros p r; [done |].
  rewrite descend_S. destruct (NewSpanID generateID p r) as [child r1].
  specialize (IH child r1).
  destruct (descend generateID n child r1) as [below r2]. simpl in *.
  by rewrite IH.
Qed.

Lemma descend_chain (n : nat) (p : SpanID.t) (r : Rand) (i : nat)
    (a b : SpanID.t) :
  (p :: (descend generateID n p r).1) !! i = Some a ->
  (p :: (descend generateID n p r).1) !! S i = Some b ->
  SpanID.Trace b = SpanID.Trace p /\ SpanID.Parent b = SpanID.Span a.
Proof.
  revert p r i a; induction n as [|n IH]; intros p r i a; [done |].
  rewrite descend_S.
  destruct (NewSpanID generateID p r) as [child r1] eqn:Hc.
  apply NewSpanID_fields in Hc as [Ht Hp]. specialize (IH child r1).
  destruct (descend generateID n child r1) as [below r2]. simpl in *.
  destruct i as [|i]; simpl.
  - by intros [= <-] [= <-].
  - intros Ha Hb. destruct (IH i a Ha Hb) as [Ht' Hp']. split; congruence.
Qed.

End DescendFacts.

(** X6.  In a chain of [n] spans made by repeated [NewSpanID] below a span
    [p], there are [n] identifiers, every one carries the trace of [p], and
    the parent field of each is the span of the one before it in the
    chain, [p] for the first. *)
Theorem X6_descend_chain {Rand : Type} (generateID : Rand -> ID.t * Rand)
    (n : nat) (p : SpanID.t) (r : Rand) :
  let chain := p :: (descend generateID n p r).1 in
  length chain = S n
  /\ forall i a b,
       chain !! i = Some a -> chain !! S i = Some b ->
       SpanID.Trace b = SpanID.Trace p /\ SpanID.Parent b = SpanID.Span a.
Proof.
  intros chain. subst chain. split.
  - simpl. by rewrite descend_length.
  - intros i a b. apply descend_chain.
Qed.

(** ** Annotation lists, further *)

Section AnnotationMore.

Implicit Types (anns : list Annotation) (key : string) (a : Annotation).

Lemma StringMap_loop_snoc (m : gmap string string) anns a :
  Annotations.StringMap_loop m (anns ++ [a])
  = <[Key a := string_of_bytes (Value a)]> (Annotations.StringMap_loop m anns).
Proof. by rewrite StringMap_loop_app. Qed.

Lemma StringMap_loop_union (m : gmap string string) anns :
  Annotations.StringMap_loop m anns = Annotations.StringMap_loop ∅ anns ∪ m.
Proof.
  induction anns as [|a anns IH] using rev_ind.
  - simpl. by rewrite (left_id_L ∅ (∪)).
  - rewrite !StringMap_loop_snoc, IH. by rewrite insert_union_l.
Qed.

Lemma StringMap_dom anns :
  dom (Annotations.StringMap anns) = list_to_set (Key <$> anns).
Proof.
  unfold Annotations.StringMap.
  induction anns as [|a anns IH] using rev_ind;
    [unfold Annotations.StringMap_loop; simpl; by rewrite dom_empty_L |].
  rewrite StringMap_loop_snoc, dom_insert_L, IH, fmap_app, list_to_set_app_L.
  rewrite fmap_cons, fmap_nil, list_to_set_cons, list_to_set_nil.
  rewrite (right_id_L ∅ (∪)). apply (comm_L (∪)).
Qed.

Lemma size_list_to_set_le (l : list string) :
  size (list_to_set l : gset string) <= length l.
Proof.
  induction l as [|x l IH];
    [by rewrite list_to_set_nil, size_empty | rewrite list_to_set_cons].
  destruct (decide (x ∈ (list_to_set l : gset string))) as [Hx|Hx].
  - rewrite (subseteq_union_1_L {[x]} (list_to_set l))
      by (by apply singleton_subseteq_l).
    simpl. lia.
  - rewrite size_union by (by apply disjoint_singleton_l).
    rewrite size_singleton. simpl. lia.
Qed.

Lemma size_list_to_set_NoDup (l : list string) :
  size (list_to_set l : gset string) = length l <-> NoDup l.
Proof.
  split; [|apply size_list_to_set].
  induction l as [|x l IH]; [constructor | rewrite list_to_set_cons].
  pose proof (size_list_to_set_le l) as Hle.
  destruct (decide (x ∈ (list_to_set l : gset string))) as [Hx|Hx].
  - rewrite (subseteq_union_1_L {[x]} (list_to_set l))
      by (by apply singleton_subseteq_l).
    simpl. lia.
  - rewrite size_union by (by apply disjoint_singleton_l).
    rewrite size_singleton. simpl.
    intros H. constructor; [by rewrite elem_of_list_to_set in Hx | apply IH; lia].
Qed.

Lemma get_present anns key :
  key ∈ Key <$> anns ->
  exists l1 a l2, anns = l1 ++ a :: l2 /\ Key a = key
                  /\ Forall (fun x => Key x <> key) l1.
Proof.
  induction anns as [|x anns IH]; simpl; [by intros ?%elem_of_nil |].
  destruct (decide (Key x = key)) as [Hx|Hx].
  - intros _. by exists [], x, anns.
  - intros [?|Hin]%elem_of_cons; [done |].
    destruct (IH Hin) as (l1 & a & l2 & -> & Ha & Hl1).
    exists (x :: l1), a, l2. by repeat split; [|constructor].
Qed.

Lemma absent_Forall anns key :
  key ∉ Key <$> anns <-> Forall (fun x => Key x <> key) anns.
Proof.
  rewrite Forall_forall. split.
  - intros H x Hx Heq. apply H. apply list_elem_of_fmap. by exists x.
  - intros H (x & -> & Hx)%list_elem_of_fmap. by apply (H x).
Qed.

Lemma get_absent anns key :
  Forall (fun x => Key x <> key) anns -> Annotations.get anns key = None.
Proof. intros H. rewrite <- (app_nil_r anns). by rewrite get_skip. Qed.

Lemma get_first anns1 a anns2 :
  Forall (fun x => Key x <> Key a) anns1 ->
  Annotations.get (anns1 ++ a :: anns2) (Key a) = Value a.
Proof. intros H. rewrite get_skip by done. simpl. by rewrite String.eqb_refl. Qed.

End AnnotationMore.

(** X7.  [StringMap] of two lists one after the other is the map of the
    second laid over the map of the first: entries of the later list win,
    and appending one annotation sets its key. *)
Theorem X7_StringMap_app (anns1 anns2 : list Annotation) :
  Annotations.StringMap (anns1 ++ anns2)
  = Annotations.StringMap anns2 ∪ Annotations.StringMap anns1.
Proof.
  unfold Annotations.StringMap.
  by rewrite StringMap_loop_app, StringMap_loop_union.
Qed.

(** X8.  The keys of [StringMap] are exactly the keys that occur in the
    list; the map never has more entries than the list has annotations, and
    has as many exactly when no key occurs twice. *)
Theorem X8_StringMap_keys (anns : list Annotation) :
  dom (Annotations.StringMap anns) = list_to_set (Key <$> anns)
  /\ size (Annotations.StringMap anns) <= length anns
  /\ (size (Annotations.StringMap anns) = length anns <-> NoDup (Key <$> anns)).
Proof.
  pose proof (StringMap_dom anns) as Hd.
  pose proof (size_dom (D:=gset string) (Annotations.StringMap anns)) as Hs.
  rewrite Hd in Hs. rewrite <- Hs. split; [done | split].
  - rewrite <- (length_fmap Key anns). apply size_list_to_set_le.
  - rewrite <- (length_fmap Key anns). apply size_list_to_set_NoDup.
Qed.

(** X9.  [StringMap] has an entry for a key exactly when the key occurs in
    the list, and when no key occurs twice that entry is the string of what
    [get] returns for the key: on lists without duplicate keys the two
    views agree. *)
Theorem X9_StringMap_get_agree (anns : list Annotation) (key : string) :
  NoDup (Key <$> anns) ->
  Annotations.StringMap anns !! key
  = if decide (key ∈ Key <$> anns)
    then Some (string_of_bytes (Annotations.get anns key))
    else None.
Proof.
  intros Hnd. unfold Annotations.StringMap.
  destruct (decide (key ∈ Key <$> anns)) as [Hin|Hout].
  - destruct (get_present anns key Hin) as (l1 & a & l2 & -> & <- & Hl1).
    rewrite fmap_app, fmap_cons in Hnd.
    apply NoDup_app in Hnd as (_ & _ & Hnd). apply NoDup_cons in Hnd as [Hl2 _].
    apply absent_Forall in Hl2.
    rewrite StringMap_loop_app, StringMap_loop_cons, StringMap_loop_skip by done.
    by rewrite lookup_insert_eq, get_first.
  - apply absent_Forall in Hout. by rewrite StringMap_loop_skip.
Qed.

Lemma X9_StringMap_get_agree_witness :
  Annotations.StringMap
    [mkAnnotation "User" (Some "u"); mkAnnotation "Route" None] !! "Route"
  = Some "".
Proof.
  apply (X9_StringMap_get_agree
           [mkAnnotation "User" (Some "u"); mkAnnotation "Route" None] "Route").
  repeat constructor; simpl; rewrite ?elem_of_cons, ?elem_of_nil;
    intros H; repeat destruct H as [H|H]; discriminate || done.
Defined.

(** X10.  [get] returns nil in two cases that its caller cannot tell
    apart: no annotation has the key, or the first annotation with the key
    has a nil value. *)
Theorem X10_get_nil (anns : list Annotation) (key : string) :
  Annotations.get anns key = None
  <-> key ∉ Key <$> anns
      \/ exists l1 a l2,
           anns = l1 ++ a :: l2 /\ Forall (fun x => Key x <> key) l1
           /\ Key a = key /\ Value a = None.
Proof.
  split.
  - intros Hg. destruct (decide (key ∈ Key <$> anns)) as [Hin|Hout]; [|by left].
    right. destruct (get_present anns key Hin) as (l1 & a & l2 & -> & <- & Hl1).
    rewrite get_first in Hg by done. by exists l1, a, l2.
  - intros [Hout|(l1 & a & l2 & -> & Hl1 & <- & Hv)].
    + apply get_absent. by apply absent_Forall.
    + by rewrite get_first.
Qed.

(** X11.  [get] on two lists one after the other answers from the first
    list whenever the key occurs there, even with a nil value, and from the
    second list otherwise. *)
Theorem X11_get_app (anns1 anns2 : list Annotation) (key : string) :
  Annotations.get (anns1 ++ anns2) key
  = if decide (key ∈ Key <$> anns1) then Annotations.get anns1 key
    else Annotations.get anns2 key.
Proof.
  destruct (decide (key ∈ Key <$> anns1)) as [Hin|Hout].
  - destruct (get_present anns1 key Hin) as (l1 & a & l2 & -> & <- & Hl1).
    by rewrite <- app_assoc, <- app_comm_cons, !get_first.
  - apply absent_Forall in Hout. by apply get_skip.
Qed.

Section SchemasMore.

Lemma schemas_is_spec (anns : list Annotation) :
  Annotations.schemas anns = schemas_spec anns.
Proof. unfold Annotations.schemas. by rewrite schemas_from. Qed.

Lemma schemas_spec_app (anns1 anns2 : list Annotation) :
  schemas_spec (anns1 ++ anns2) = schemas_spec anns1 ++ schemas_spec anns2.
Proof.
  induction anns1 as [|a l IH]; [done |]. cbn [schemas_spec app].
  rewrite IH. by destruct (strip_prefix _ (Key a)).
Qed.

Lemma schemas_spec_length (anns : list Annotation) :
  length (schemas_spec anns) <= length anns.
Proof.
  induction anns as [|a l IH]; [done |]. cbn [schemas_spec].
  destruct (strip_prefix _ (Key a)); simpl; lia.
Qed.

Lemma schemas_spec_elem (anns : list Annotation) (name : string) :
  name ∈ schemas_spec anns
  <-> exists a, a ∈ anns /\ Key a = "_schema:" +:+ name.
Proof.
  induction anns as [|a l IH].
  - split; [by intros ?%elem_of_nil | by intros (a & ?%elem_of_nil & _)].
  - cbn [schemas_spec].
    destruct (strip_prefix "_schema:" (Key a)) as [n|] eqn:Hs.
    + apply strip_prefix_Some in Hs. rewrite elem_of_cons, IH. split.
      * intros [->|(x & Hx & Hk)]; [exists a | exists x];
          by rewrite elem_of_cons; auto.
      * intros (x & [->|Hx]%elem_of_cons & Hk).
        -- left. rewrite Hs in Hk. by apply string_app_inv_head in Hk.
        -- right. by exists x.
    + rewrite IH. split.
      * intros (x & Hx & Hk). exists x. by rewrite elem_of_cons; auto.
      * intros (x & [->|Hx]%elem_of_cons & Hk); [|by exists x].
        apply strip_prefix_Some in Hk. congruence.
Qed.

End SchemasMore.

(** X12.  [schemas] goes through a list piece by piece: the names of two
    lists one after the other are the names of the first followed by the
    names of the second, and there are never more names than annotations. *)
Theorem X12_schemas_app (anns1 anns2 : list Annotation) :
  Annotations.schemas (anns1 ++ anns2)
  = Annotations.schemas anns1 ++ Annotations.schemas anns2
  /\ length (Annotations.schemas anns1) <= length anns1.
Proof.
  rewrite !schemas_is_spec. split;
    [apply schemas_spec_app | apply schemas_spec_length].
Qed.

(** X13.  A name is among [schemas] exactly when some annotation has the
    key [_schema:] followed by that name; the key [_schema:] alone gives the
    empty name, and the values of the annotations play no part. *)
Theorem X13_schemas_elem (anns : list Annotation) (name : string) :
  name ∈ Annotations.schemas anns
  <-> exists a, a ∈ anns /\ Key a = "_schema:" +:+ name.
Proof. rewrite schemas_is_spec. apply schemas_spec_elem. Qed.

(** ** From a map to annotations and back *)

Section MapToAnnotationsFacts.

Implicit Types (l visited : list (string * string)) (m : gmap string string).

Lemma mapToAnnotations_from (acc : list Annotation) l :
  fold_left (fun anns kv => anns ++ [mkAnnotation kv.1 (Some kv.2)]) l acc
  = acc ++ ((fun kv => mkAnnotation kv.1 (Some kv.2)) <$> l).
Proof.
  revert acc; induction l as [|kv l IH]; intros acc; simpl.
  - by rewrite app_nil_r.
  - by rewrite IH, <- app_assoc.
Qed.

Lemma mapToAnnotations_fmap l :
  mapToAnnotations l = (fun kv => mkAnnotation kv.1 (Some kv.2)) <$> l.
Proof. unfold mapToAnnotations. by rewrite mapToAnnotations_from. Qed.

Lemma mapToAnnotations_keys l : Key <$> mapToAnnotations l = l.*1.
Proof.
  rewrite mapToAnnotations_fmap, <- list_fmap_compose. by apply list_fmap_ext.
Qed.

Lemma StringMap_mapToAnnotations l :
  NoDup l.*1 -> Annotations.StringMap (mapToAnnotations l) = list_to_map l.
Proof.
  rewrite mapToAnnotations_fmap. unfold Annotations.StringMap.
  induction l as [|[k v] l IH]; [done |].
  rewrite fmap_cons. intros [Hk Hnd]%NoDup_cons.
  rewrite fmap_cons, StringMap_loop_cons, StringMap_loop_union, (IH Hnd).
  simpl. rewrite insert_empty, insert_union_singleton_l.
  apply map_union_comm, map_disjoint_singleton_r.
  by apply not_elem_of_list_to_map_1.
Qed.

Lemma get_mapToAnnotations l (k : string) :
  NoDup l.*1 ->
  Annotations.get (mapToAnnotations l) k = (list_to_map l : gmap string string) !! k.
Proof.
  rewrite mapToAnnotations_fmap.
  induction l as [|[k' v] l IH]; [done |].
  rewrite fmap_cons. intros [Hk Hnd]%NoDup_cons. simpl.
  destruct (String.eqb_spec k' k) as [->|Hne].
  - by rewrite lookup_insert_eq.
  - rewrite lookup_insert_ne by done. by apply IH.
Qed.

End MapToAnnotationsFacts.

(** X14.  Whatever the order in which [range] visits the entries of a map
    [m], the annotations [mapToAnnotations] makes of it have one annotation
    per entry, [StringMap] gives back [m], and [get] returns for every key
    the value [m] has for it, nil exactly for the keys [m] lacks. *)
Theorem X14_mapToAnnotations_StringMap (m : gmap string string)
    (visited : list (string * string)) :
  range_order m visited ->
  Annotations.StringMap (mapToAnnotations visited) = m
  /\ length (mapToAnnotations visited) = size m
  /\ forall k, Annotations.get (mapToAnnotations visited) k = m !! k.
Proof.
  unfold range_order. intros Hp.
  assert (Hnd : NoDup visited.*1).
  { rewrite Hp. apply NoDup_fst_map_to_list. }
  assert (Hm : list_to_map visited = m).
  { rewrite (list_to_map_proper _ _ Hnd Hp). apply list_to_map_to_list. }
  split; [|split].
  - by rewrite StringMap_mapToAnnotations.
  - rewrite mapToAnnotations_fmap, length_fmap, Hp.
    apply length_map_to_list.
  - intros k. by rewrite get_mapToAnnotations, Hm.
Qed.

Lemma X14_mapToAnnotations_StringMap_witness :
  Annotations.StringMap (mapToAnnotations [("User", "u")]) = {["User" := "u"]}
  /\ length (mapToAnnotations [("User", "u")])
     = size ({["User" := "u"]} : gmap string string)
  /\ forall k, Annotations.get (mapToAnnotations [("User", "u")]) k
               = ({["User" := "u"]} : gmap string string) !! k.
Proof.
  apply X14_mapToAnnotations_StringMap.
  unfold range_order. by rewrite map_to_list_singleton.
Defined.

(** ** The rendering of annotation lists *)

Section RenderingFacts.

Import GoStrings.

Context (Quote : string -> string).

Lemma string_app_nil_r (s : string) : s +:+ EmptyString = s.
Proof. induction s as [|c s IH]; simpl; [done | by rewrite IH]. Qed.

(** What the loop adds to the buffer does not depend on the buffer. *)
Lemma Annotations_String_from (buf : string) (anns : list Annotation) :
  fold_left
    (fun buf a =>
       buf +:+ (Key a +:+ "=" +:+ Quote (string_of_bytes (Value a)) +:+ newline))
    anns buf
  = buf +:+ Annotations_String Quote anns.
Proof.
  unfold Annotations_String.
  revert buf; induction anns as [|a anns IH]; intros buf; cbn [fold_left].
  - by rewrite string_app_nil_r.
  - rewrite IH, (IH (EmptyString +:+ _)). by rewrite string_app_assoc.
Qed.

(** The line written for one annotation. *)
Lemma Annotations_String_cons (a : Annotation) (anns : list Annotation) :
  Annotations_String Quote (a :: anns)
  = (Key a +:+ "=" +:+ Quote (string_of_bytes (Value a)) +:+ newline)
      +:+ Annotations_String Quote anns.
Proof.
  unfold Annotations_String at 1. cbn [fold_left].
  rewrite Annotations_String_from. reflexivity.
Qed.

Lemma Annotations_String_app (anns1 anns2 : list Annotation) :
  Annotations_String Quote (anns1 ++ anns2)
  = Annotations_String Quote anns1 +:+ Annotations_String Quote anns2.
Proof.
  induction anns1 as [|a anns1 IH]; [done |].
  rewrite <- app_comm_cons, !Annotations_String_cons, IH.
  by rewrite !string_app_assoc.
Qed.

Lemma Annotations_String_lines (anns : list Annotation) :
  Forall (fun a => count_byte "010" (Key a) = O
                   /\ count_byte "010" (Quote (string_of_bytes (Value a))) = O)
    anns ->
  count_byte "010" (Annotations_String Quote anns) = length anns.
Proof.
  induction 1 as [|a anns [Hk Hv] _ IH]; [done |].
  rewrite Annotations_String_cons, !count_byte_app, Hk, Hv, IH. reflexivity.
Qed.

End RenderingFacts.

(** X15.  The rendering of annotation lists is written line after line:
    the rendering of two lists one after the other is the rendering of the
    first followed by that of the second; and when neither the keys nor the
    quoted values hold a line feed, it has exactly one line feed per
    annotation.  Keys are written as they are, so a line feed in a key
    would break that count. *)
Theorem X15_Annotations_String_lines (Quote : string -> string)
    (anns1 anns2 : list Annotation) :
  Annotations_String Quote (anns1 ++ anns2)
  = Annotations_String Quote anns1 +:+ Annotations_String Quote anns2
  /\ (Forall
        (fun a =>
           GoStrings.count_byte "010" (Key a) = O
           /\ GoStrings.count_byte "010" (Quote (string_of_bytes (Value a))) = O)
        anns1 ->
      GoStrings.count_byte "010" (Annotations_String Quote anns1)
      = length anns1).
Proof.
  split; [apply Annotations_String_app | apply Annotations_String_lines].
Qed.

Lemma X15_Annotations_String_lines_witness :
  GoStrings.count_byte "010"
    (Annotations_String (fun s => String "034" s +:+ String "034" EmptyString)
       [mkAnnotation "User" (Some "u"); mkAnnotation "_schema:HTTPServer" None])
  = 2%nat.
Proof.
  apply (proj2 (X15_Annotations_String_lines
                  (fun s => String "034" s +:+ String "034" EmptyString)
                  [mkAnnotation "User" (Some "u");
                   mkAnnotation "_schema:HTTPServer" None] [])).
  repeat constructor.
Defined.

(** ** Splitting at the delimiter *)

Section SplitMore.

Import GoStrings.

Lemma Join_fields (c : ascii) (s : string) :
  Join (fields c s) (String c EmptyString) = s.
Proof.
  induction s as [|x r IH]; [done |]. simpl fields.
  pose proof (fields_nonempty c r) as Hne.
  destruct (Ascii.eqb_spec x c) as [->|Hx].
  - destruct (fields c r) as [|h t]; [done |].
    change (Join (EmptyString :: h :: t) (String c EmptyString))
      with (EmptyString +:+ String c EmptyString +:+ Join (h :: t) (String c EmptyString)).
    by rewrite IH.
  - destruct (fields c r) as [|h [|h' t]]; [done | |].
    + simpl in *. by rewrite IH.
    + change (Join (String x h :: h' :: t) (String c EmptyString))
        with (String x (h +:+ String c EmptyString
                          +:+ Join (h' :: t) (String c EmptyString))).
      by rewrite <- IH.
Qed.

Lemma fields_components (c : ascii) (s : string) :
  Forall (fun p => count_byte c p = O) (fields c s).
Proof.
  induction s as [|x r IH]; [by repeat constructor |]. simpl fields.
  destruct (Ascii.eqb x c) eqn:Hx; [by constructor |].
  destruct (fields c r) as [|h t]; [by repeat constructor; simpl; rewrite Hx |].
  inversion IH as [|? ? Hh Ht]; subst. constructor; [|done].
  simpl. by rewrite Hx.
Qed.

End SplitMore.

(** X16.  The components [ParseSpanID] works on are never none, hold no
    slash, and joined with slashes give the string back: nothing of the
    input is dropped or trimmed before the components are decoded. *)
Theorem X16_Split_Join (s : string) :
  let parts := GoStrings.Split s SpanIDDelimiter in
  GoStrings.Join parts SpanIDDelimiter = s
  /\ Forall (fun p => GoStrings.count_byte "/" p = O) parts
  /\ length parts = S (GoStrings.count_byte "/" s).
Proof.
  intros parts. subst parts. unfold SpanIDDelimiter. rewrite Split_fields.
  split; [apply Join_fields | split];
    [apply fields_components | apply length_fields].
Qed.

(** ** Generated identifiers on the wire *)

Section GeneratedFacts.

Context {Rand : Type} (generateID : Rand -> ID.t * Rand).

Hypothesis generateID_valid : forall r, ID.valid (generateID r).1.

Lemma NewRootSpanID_valid (r : Rand) :
  SpanID.valid (NewRootSpanID generateID r).1.
Proof.
  unfold NewRootSpanID.
  pose proof (generateID_valid r) as H1. destruct (generateID r) as [i r1].
  pose proof (generateID_valid r1) as H2. destruct (generateID r1) as [j r2].
  by repeat split.
Qed.

Lemma NewSpanID_valid (p : SpanID.t) (r : Rand) :
  SpanID.valid p -> SpanID.valid (NewSpanID generateID p r).1.
Proof.
  intros (Ht & Hs & _). unfold NewSpanID.
  pose proof (generateID_valid r) as H1. destruct (generateID r) as [i r1].
  by repeat split.
Qed.

End GeneratedFacts.

(** X17.  When the generator yields 64-bit values, as a [uint64] generator
    does, the identifiers made by [NewRootSpanID] and, below a 64-bit
    parent, by [NewSpanID] have 64-bit fields, and each of them comes back
    unchanged from [ParseSpanID] applied to its [String()]. *)
Theorem X17_generated_roundtrip {Rand : Type}
    (generateID : Rand -> ID.t * Rand) (p : SpanID.t) (r : Rand) :
  (forall r, ID.valid (generateID r).1) ->
  SpanID.valid p ->
  let root := (NewRootSpanID generateID r).1 in
  let child := (NewSpanID generateID p r).1 in
  SpanID.valid root /\ SpanID.valid child
  /\ ParseSpanID (SpanID.String root) = (Some root, None)
  /\ ParseSpanID (SpanID.String child) = (Some child, None).
Proof.
  intros Hg Hp root child.
  assert (Hr : SpanID.valid root) by by apply NewRootSpanID_valid.
  assert (Hc : SpanID.valid child) by by apply NewSpanID_valid.
  repeat split; try apply Hr; try apply Hc; by apply ParseSpanID_of_String.
Qed.

Lemma X17_generated_roundtrip_witness :
  let g := fun n : N => ((n mod 2 ^ 64)%N, (n + 1)%N) in
  ParseSpanID (SpanID.String (NewSpanID g (SpanID.mk 1 2 0) 7%N).1)
  = (Some (SpanID.mk 1 7 2), None).
Proof.
  intros g.
  apply (X17_generated_roundtrip g (SpanID.mk 1 2 0) 7%N).
  - intros r. unfold ID.valid. simpl. apply N.mod_lt. discriminate.
  - unfold SpanID.valid, ID.valid. simpl. repeat split; reflexivity.
Defined.
